(** * appendable_arrays.c: a growable array of [int] over a fixed-size block

    Shallow embedding of [src/appendable_arrays.c] and the properties of its
    [Array] operations: [newArray], [set], [get], [append], [popBack] and
    [popFront].

    Platform: LP64 Linux, so [int] has 32 bits and [size_t] 64 bits; the
    program is built with assertions enabled (no [NDEBUG]).

    C leaves some executions without a meaning (an access outside a block or
    through a null pointer, the read of an indeterminate slot, a signed
    overflow).  Such an execution ends in the outcome [Undefined]; a failed
    [assert] ends in [Abort].  Every call of the allocator and every access
    to the data block is recorded as an event, so that what an operation does
    to memory can be stated. *)

From stdpp Require Import base numbers list strings pretty.

Local Open Scope Z_scope.

(** ** Machine integers *)

Definition INT_MIN : Z := - 2 ^ 31.
Definition INT_MAX : Z := 2 ^ 31 - 1.
Definition SIZE_MODULUS : Z := 2 ^ 64.
Definition PTRDIFF_MAX : Z := 2 ^ 63 - 1.

(** [sizeof(int)] and [sizeof(Array)] (a pointer and two ints). *)
Definition sizeof_int : Z := 4.
Definition sizeof_Array : Z := 16.

(** Conversion of an [int] to [size_t], and multiplication in [size_t]. *)
Definition to_size_t (z : Z) : Z := z mod SIZE_MODULUS.
Definition size_mul (x y : Z) : Z := (x * y) mod SIZE_MODULUS.

Definition in_int_range (z : Z) : bool := (INT_MIN <=? z) && (z <=? INT_MAX).

(** ** Outcomes and the event log *)

(** The two assertion messages of [set] and [get]. *)
Inductive failure : Type :=
  | RangeErrorEnd     (* "... beyond the end of the array" *)
  | RangeErrorStart.  (* "... beyond the start of the array" *)

Inductive outcome (A : Type) : Type :=
  | Ok (x : A)
  | Abort (e : failure)
  | Undefined.
Arguments Ok {A} x.
Arguments Abort {A} e.
Arguments Undefined {A}.

Inductive event : Type :=
  | EvMalloc (bytes : Z)
  | EvMemcpy (bytes : Z)
  | EvFree
  | EvLoad (idx : Z)     (* read of data[idx] *)
  | EvStore (idx : Z).   (* write of data[idx] *)

(** A computation: the events it performed, in order, and how it ended. *)
Definition M (A : Type) : Type := (list event * outcome A)%type.

Definition events {A} (m : M A) : list event := fst m.
Definition result {A} (m : M A) : outcome A := snd m.

Definition ret {A} (x : A) : M A := ([], Ok x).
Definition abort {A} (e : failure) : M A := ([], Abort e).
Definition undefined {A} : M A := ([], Undefined).
Definition emit (e : event) : M unit := ([e], Ok tt).

Definition bind {A B} (m : M A) (f : A -> M B) : M B :=
  match m with
  | (t, Ok x) => let '(t', r) := f x in (t ++ t', r)
  | (t, Abort e) => (t, Abort e)
  | (t, Undefined) => (t, Undefined)
  end.

(** [after t m]: the computation [m], run after the events [t]. *)
Definition after {A} (t : list event) (m : M A) : M A :=
  (t ++ events m, result m).

Notation "'do' x <- m ; k" := (bind m (fun x => k))
  (at level 10, x name, m at level 100, k at level 200,
   format "'[v' 'do'  x  <-  m ; '/' k ']'").

(** ** Memory *)

(** A block of [int] slots; [None] is a slot whose value is indeterminate.
    A pointer is [None] when null. *)
Abbreviation block := (list (option Z)).
Abbreviation pointer := (option block).

Definition block_size (b : block) : Z := Z.of_nat (List.length b).

(** [malloc(bytes)]: a request above [PTRDIFF_MAX] returns null; any other
    request is granted (the heap itself is not bounded) and gives fresh
    slots of indeterminate value, none for a request of 0 bytes. *)
Definition malloc (bytes : Z) : M pointer :=
  do _ <- emit (EvMalloc bytes);
  if bytes <=? PTRDIFF_MAX
  then ret (Some (replicate (Z.to_nat (bytes / sizeof_int)) None))
  else ret None.

(** [memcpy(dst, src, bytes)]: the first [bytes] bytes of [dst] become those
    of [src]; the result is the block [dst] points to afterwards.  The
    program only copies whole slots ([bytes] is a multiple of
    [sizeof(int)]). *)
Definition memcpy (dst src : pointer) (bytes : Z) : M pointer :=
  do _ <- emit (EvMemcpy bytes);
  match dst, src with
  | Some d, Some s =>
      if (bytes <=? sizeof_int * block_size d) && (bytes <=? sizeof_int * block_size s)
      then let n := Z.to_nat (bytes / sizeof_int) in
           ret (Some (take n s ++ drop n d))
      else undefined
  | _, _ => undefined
  end.

(** [free(p)]: the block is given back; the model keeps no copy of it. *)
Definition free (p : pointer) : M unit := emit EvFree.

(** [p[idx]] read. *)
Definition load (p : pointer) (idx : Z) : M Z :=
  do _ <- emit (EvLoad idx);
  match p with
  | Some b =>
      if (0 <=? idx) && (idx <? block_size b)
      then match b !! Z.to_nat idx with
           | Some (Some v) => ret v
           | _ => undefined
           end
      else undefined
  | None => undefined
  end.

(** [p[idx] = value]. *)
Definition store (p : pointer) (idx : Z) (value : Z) : M pointer :=
  do _ <- emit (EvStore idx);
  match p with
  | Some b =>
      if (0 <=? idx) && (idx <? block_size b)
      then ret (Some (<[Z.to_nat idx := Some value]> b))
      else undefined
  | None => undefined
  end.

(** Arithmetic on [int]: a result out of range is a signed overflow. *)
Definition int_arith (z : Z) : M Z :=
  if in_int_range z then ret z else undefined.

(** [assert(c && msg)], assertions enabled. *)
Definition assert (c : bool) (msg : failure) : M unit :=
  if c then ret tt else abort msg.

(** ** The array *)

Record Array : Type := mkArray {
  data : pointer;
  capacity : Z;
  length : Z
}.

Definition with_data (a : Array) (d : pointer) : Array :=
  {| data := d; capacity := capacity a; length := length a |}.
Definition with_capacity (a : Array) (c : Z) : Array :=
  {| data := data a; capacity := c; length := length a |}.
Definition with_length (a : Array) (l : Z) : Array :=
  {| data := data a; capacity := capacity a; length := l |}.

Definition newArray (capacity : Z) : M Array :=
  do a <- malloc sizeof_Array;
  match a with
  | None => undefined
  | Some _ =>
      do d <- malloc (size_mul sizeof_int (to_size_t capacity));
      ret {| data := d; capacity := capacity; length := 0 |}
  end.

Definition set (a : Array) (idx value : Z) : M Array :=
  do _ <- assert (idx <? length a) RangeErrorEnd;
  do _ <- assert (idx >=? 0) RangeErrorStart;
  do d <- store (data a) idx value;
  ret (with_data a d).

Definition get (a : Array) (idx : Z) : M Z :=
  do _ <- assert (idx <? length a) RangeErrorEnd;
  do _ <- assert (idx >=? 0) RangeErrorStart;
  load (data a) idx.

(** The body of [if(a->length == a->capacity)] in [append]. *)
Definition grow (a : Array) : M Array :=
  do newData <- malloc (size_mul (size_mul sizeof_int (to_size_t (capacity a))) 2);
  do newData <- memcpy newData (data a) (size_mul sizeof_int (to_size_t (length a)));
  do _ <- free (data a);
  let a := with_data a newData in
  do c <- int_arith (capacity a * 2);
  ret (with_capacity a c).

Definition append (a : Array) (value : Z) : M Array :=
  do a <- (if length a =? capacity a then grow a else ret a);
  do d <- store (data a) (length a) value;
  let a := with_data a d in
  do l <- int_arith (length a + 1);
  ret (with_length a l).

Definition popBack (a : Array) : M Array :=
  do l <- int_arith (length a - 1);
  ret (with_length a l).

Definition popFront (a : Array) : M Array := ret a.

(** ** Sequences of operations *)

Inductive operation : Type :=
  | OpGet (idx : Z)
  | OpSet (idx value : Z)
  | OpAppend (value : Z)
  | OpPopBack
  | OpPopFront.

Definition perform (a : Array) (o : operation) : M Array :=
  match o with
  | OpGet idx => do _ <- get a idx; ret a
  | OpSet idx value => set a idx value
  | OpAppend value => append a value
  | OpPopBack => popBack a
  | OpPopFront => popFront a
  end.

(** The arrays a program can hold: made by [newArray] with a capacity that
    is a non-negative [int], then changed by operations that return.  The
    [guard] says which calls the program makes. *)
Inductive reachable_under (guard : Array -> operation -> bool) : Array -> Prop :=
  | reachable_create c a :
      0 <= c <= INT_MAX ->
      result (newArray c) = Ok a ->
      reachable_under guard a
  | reachable_step a o a' :
      reachable_under guard a ->
      guard a o = true ->
      result (perform a o) = Ok a' ->
      reachable_under guard a'.

Definition any_call (a : Array) (o : operation) : bool := true.

Definition reachable : Array -> Prop := reachable_under any_call.

(** The calls of a program that pops only from an array that has elements. *)
Definition pop_nonempty (a : Array) (o : operation) : bool :=
  match o with
  | OpPopBack => 0 <? length a
  | _ => true
  end.

(** [appendAll a [v0; ...; vn]] is [append(a, v0); ...; append(a, vn)]. *)
Fixpoint appendAll (a : Array) (values : list Z) : M Array :=
  match values with
  | [] => ret a
  | v :: values => do a <- append a v; appendAll a values
  end.

(** ** Well-formed arrays *)

Definition is_int (slot : option Z) : bool :=
  match slot with Some _ => true | None => false end.

(** The data block has [capacity] slots, the first [length] of them hold
    values, and [0 <= length <= capacity <= INT_MAX]. *)
Definition wf (a : Array) : bool :=
  match data a with
  | Some b =>
      (block_size b =? capacity a)
      && (0 <=? length a) && (length a <=? capacity a)
      && (capacity a <=? INT_MAX)
      && forallb is_int (take (Z.to_nat (length a)) b)
  | None => false
  end.

(** The slot [idx] of a block, when there is one. *)
Definition slot_at (p : pointer) (idx : Z) : option (option Z) :=
  match p with
  | Some b => if 0 <=? idx then b !! Z.to_nat idx else None
  | None => None
  end.

Definition slot (a : Array) (idx : Z) : option (option Z) :=
  slot_at (data a) idx.

Definition is_abort {A} (o : outcome A) : bool :=
  match o with Abort _ => true | _ => false end.

(** ** Sample arrays *)

(** [newArray(2)]. *)
Definition empty_of_two : Array :=
  {| data := Some [None; None]; capacity := 2; length := 0 |}.

(** [newArray(2)] after [popBack]. *)
Definition popped_below_zero : Array :=
  {| data := Some [None; None]; capacity := 2; length := -1 |}.

(** The array of [main] after its appends and its [set]. *)
Definition three_of_four : Array :=
  {| data := Some [Some 10; Some 15; Some 30; None]; capacity := 4; length := 3 |}.

(** ** Printing *)

Definition newline : string := String (Ascii.ascii_of_nat 10) "".

(** The body of [for(int i = 1; i < a->length; i++)] in [printArray], with
    the text written so far.  [fuel] bounds the number of rounds; the call in
    [printArray] gives more than the loop takes. *)
Fixpoint printArray_loop (fuel : nat) (a : Array) (i : Z) (out : string) : M string :=
  if i <? length a
  then match fuel with
       | O => undefined
       | S fuel =>
           do x <- get a i;
           let out := out +:+ ", " +:+ pretty x in
           do i <- int_arith (i + 1);
           printArray_loop fuel a i out
       end
  else ret out.

(** [printArray]: the text a call that returns has written to [stdout];
    [printf("%d", x)] writes [x] in decimal. *)
Definition printArray (a : Array) : M string :=
  let out := "Array:{" in
  do out <- (if negb (length a =? 0)
             then do x <- get a 0; ret (out +:+ pretty x)
             else ret out);
  do out <- printArray_loop (Z.to_nat (length a)) a 1 out;
  ret (out +:+ "}" +:+ newline).

(** What the loop of [printArray] writes for the values [ws]. *)
Definition after_first (ws : list Z) : string :=
  foldr (fun x s => ", " +:+ pretty x +:+ s) "" ws.

(** ** Runs and their list model *)

(** [performAll a [o1; ...; on]]: the operations one after the other. *)
Fixpoint performAll (a : Array) (ops : list operation) : M Array :=
  match ops with
  | [] => ret a
  | o :: ops => do a <- perform a o; performAll a ops
  end.

(** Every [popBack] of the run is on an array of positive length. *)
Fixpoint pops_nonempty (a : Array) (ops : list operation) : bool :=
  match ops with
  | [] => true
  | o :: ops =>
      pop_nonempty a o
      && match result (perform a o) with
         | Ok a' => pops_nonempty a' ops
         | _ => true
         end
  end.

(** The values in the first [length] slots, in order (a slot without a
    value is left out; a well-formed array has none below [length]). *)
Definition elements (a : Array) : list Z :=
  match data a with
  | Some b => omap id (take (Z.to_nat (length a)) b)
  | None => []
  end.

(** What an operation does to the list of elements. *)
Definition list_step (vs : list Z) (o : operation) : list Z :=
  match o with
  | OpGet _ => vs
  | OpSet idx value => <[Z.to_nat idx := value]> vs
  | OpAppend value => vs ++ [value]
  | OpPopBack => take (List.length vs - 1) vs
  | OpPopFront => vs
  end.

(** By how much an operation that returns changes [length]. *)
Definition length_change (o : operation) : Z :=
  match o with
  | OpAppend _ => 1
  | OpPopBack => -1
  | _ => 0
  end.

Definition net_length_change (ops : list operation) : Z :=
  foldr (fun o n => length_change o + n) 0 ops.

Definition is_append (o : operation) : bool :=
  match o with OpAppend _ => true | _ => false end.

(** ** Measures of an event log *)





(** What [newArray(-1)] returns: the request wraps around in [size_t] and
    no block is granted. *)
Definition null_of_minus_one : Array :=
  {| data := None; capacity := -1; length := 0 |}.


(** * Lemmas *)

(** The comparisons the code makes, settled from the hypotheses. *)
Ltac holds :=
  symmetry;
  repeat (apply andb_true_intro; split);
  first [apply Z.leb_le | apply Z.ltb_lt | apply Z.eqb_eq | apply Z.geb_le];
  lia.

Ltac fails :=
  symmetry;
  first [apply Z.leb_gt | apply Z.ltb_ge | apply Z.eqb_neq
        | rewrite Z.geb_leb; apply Z.leb_gt];
  lia.

(** ** Laws of the computations *)

Lemma result_bind {A B} (m : M A) (f : A -> M B) :
  result (bind m f) =
  match result m with
  | Ok x => result (f x)
  | Abort e => Abort e
  | Undefined => Undefined
  end.
Proof.
  destruct m as [t [x | e |]]; simpl; try reflexivity.
  destruct (f x); reflexivity.
Qed.

Lemma bind_ok {A B} t (x : A) (f : A -> M B) :
  bind (t, Ok x) f = after t (f x).
Proof. unfold after. simpl. destruct (f x); reflexivity. Qed.

Lemma after_pair {A} t t' (r : outcome A) : after t (t', r) = (t ++ t', r).
Proof. reflexivity. Qed.

Lemma bind_ret {A B} (x : A) (f : A -> M B) : bind (ret x) f = f x.
Proof. unfold ret. rewrite bind_ok. destruct (f x); reflexivity. Qed.

(** ** Sizes in bytes *)

Lemma size_of_slots c :
  0 <= c <= INT_MAX -> size_mul sizeof_int (to_size_t c) = 4 * c.
Proof.
  unfold size_mul, to_size_t, sizeof_int, SIZE_MODULUS, INT_MAX. intros H.
  rewrite (Z.mod_small c) by lia. apply Z.mod_small. lia.
Qed.

Lemma size_of_slots_twice c :
  0 <= c <= INT_MAX -> size_mul (size_mul sizeof_int (to_size_t c)) 2 = 8 * c.
Proof.
  intros H. rewrite size_of_slots by exact H.
  unfold size_mul, SIZE_MODULUS, INT_MAX in *. rewrite Z.mod_small; lia.
Qed.

Lemma four_times_div n : 4 * n / 4 = n.
Proof. rewrite Z.mul_comm. apply Z.div_mul. lia. Qed.

(** ** The memory primitives where they are defined *)

Lemma malloc_slots n :
  0 <= n <= 2 * INT_MAX ->
  malloc (4 * n) = ([EvMalloc (4 * n)], Ok (Some (replicate (Z.to_nat n) None))).
Proof.
  intros H. unfold malloc, emit. rewrite bind_ok.
  replace (4 * n <=? PTRDIFF_MAX) with true
    by (unfold PTRDIFF_MAX, INT_MAX in *; holds).
  unfold sizeof_int. rewrite four_times_div.
  reflexivity.
Qed.

Lemma memcpy_prefix (d s : block) n :
  0 <= n -> n <= block_size d -> n <= block_size s ->
  memcpy (Some d) (Some s) (4 * n)
  = ([EvMemcpy (4 * n)], Ok (Some (take (Z.to_nat n) s ++ drop (Z.to_nat n) d))).
Proof.
  intros H0 Hd Hs. unfold memcpy, emit. rewrite bind_ok. unfold sizeof_int.
  replace ((4 * n <=? 4 * block_size d) && (4 * n <=? 4 * block_size s)) with true
    by holds.
  rewrite four_times_div.
  reflexivity.
Qed.

Lemma store_inside (b : block) idx v :
  0 <= idx < block_size b ->
  store (Some b) idx v = ([EvStore idx], Ok (Some (<[Z.to_nat idx := Some v]> b))).
Proof.
  intros H. unfold store, emit. rewrite bind_ok.
  replace ((0 <=? idx) && (idx <? block_size b)) with true
    by holds.
  reflexivity.
Qed.

Lemma store_outside (b : block) idx v :
  idx < 0 \/ block_size b <= idx ->
  store (Some b) idx v = ([EvStore idx], Undefined).
Proof.
  intros H. unfold store, emit. rewrite bind_ok.
  replace ((0 <=? idx) && (idx <? block_size b)) with false; [reflexivity |].
  symmetry. apply andb_false_iff. rewrite Z.leb_gt, Z.ltb_ge. lia.
Qed.

Lemma load_inside (b : block) idx v :
  0 <= idx -> b !! Z.to_nat idx = Some (Some v) ->
  load (Some b) idx = ([EvLoad idx], Ok v).
Proof.
  intros H0 Hv. unfold load, emit. rewrite bind_ok.
  assert (idx < block_size b) as Hlt.
  { apply lookup_lt_Some in Hv. unfold block_size. lia. }
  replace ((0 <=? idx) && (idx <? block_size b)) with true
    by holds.
  rewrite Hv. reflexivity.
Qed.

Lemma int_arith_in_range z :
  INT_MIN <= z <= INT_MAX -> int_arith z = ret z.
Proof.
  intros H. unfold int_arith, in_int_range.
  replace ((INT_MIN <=? z) && (z <=? INT_MAX)) with true by holds.
  reflexivity.
Qed.

Lemma int_arith_overflow z :
  z < INT_MIN \/ INT_MAX < z -> int_arith z = undefined.
Proof.
  intros H. unfold int_arith, in_int_range.
  replace ((INT_MIN <=? z) && (z <=? INT_MAX)) with false; [reflexivity |].
  symmetry. apply andb_false_iff. rewrite !Z.leb_gt. lia.
Qed.

(** ** Well-formedness, unfolded *)

Lemma wf_spec a :
  wf a = true <->
  exists b, data a = Some b /\ block_size b = capacity a /\
            0 <= length a <= capacity a /\ capacity a <= INT_MAX /\
            Forall is_int (take (Z.to_nat (length a)) b).
Proof.
  unfold wf. destruct (data a) as [b |].
  - rewrite !andb_true_iff, Z.eqb_eq, !Z.leb_le, <- Is_true_true, forallb_True.
    split.
    + intros [[[[Hb H0] Hl] Hc] Hi]. exists b. auto.
    + intros (b' & Hb & Hs & Hl & Hc & Hi). injection Hb as <-. tauto.
  - split; [discriminate |]. intros (b & Hb & _). discriminate.
Qed.

Lemma initialised_lookup (b : block) n i :
  Forall is_int (take n b) -> (i < n)%nat -> (n <= List.length b)%nat ->
  exists v, b !! i = Some (Some v).
Proof.
  intros Hall Hi Hn.
  destruct (lookup_lt_is_Some_2 b i) as [x Hx]; [lia |].
  rewrite Forall_lookup in Hall. specialize (Hall i x).
  rewrite lookup_take_lt in Hall by exact Hi. specialize (Hall Hx).
  destruct x as [v |]; [eauto | contradiction].
Qed.

Lemma wf_slot a i :
  wf a = true -> 0 <= i < length a -> exists v, slot a i = Some (Some v).
Proof.
  intros Hwf Hi. apply wf_spec in Hwf as (b & Hb & Hs & Hl & Hc & Hall).
  unfold slot, slot_at. rewrite Hb. replace (0 <=? i) with true by holds.
  apply (initialised_lookup b (Z.to_nat (length a))); [exact Hall | lia |].
  unfold block_size in Hs. lia.
Qed.

(** ** The operations where they are defined *)

Lemma newArray_int c :
  0 <= c <= INT_MAX ->
  newArray c = ([EvMalloc sizeof_Array; EvMalloc (4 * c)],
                Ok {| data := Some (replicate (Z.to_nat c) None);
                      capacity := c; length := 0 |}).
Proof.
  intros H. unfold newArray.
  rewrite size_of_slots by exact H.
  change sizeof_Array with (4 * 4). rewrite (malloc_slots 4) by (unfold INT_MAX; lia).
  rewrite bind_ok. rewrite malloc_slots by lia. reflexivity.
Qed.

Lemma assert_range_pass a idx :
  0 <= idx < length a ->
  assert (idx <? length a) RangeErrorEnd = ret tt /\
  assert (idx >=? 0) RangeErrorStart = ret tt.
Proof.
  intros H. unfold assert.
  replace (idx <? length a) with true by holds.
  replace (idx >=? 0) with true by holds.
  split; reflexivity.
Qed.

Lemma set_in_range a (b : block) idx v :
  data a = Some b -> 0 <= idx < length a -> length a <= block_size b ->
  set a idx v = ([EvStore idx],
                 Ok (with_data a (Some (<[Z.to_nat idx := Some v]> b)))).
Proof.
  intros Hb Hi Hl. unfold set.
  destruct (assert_range_pass a idx Hi) as [-> ->]. rewrite !bind_ret.
  rewrite Hb, store_inside by lia. reflexivity.
Qed.

Lemma get_in_range a (b : block) idx v :
  data a = Some b -> 0 <= idx < length a -> b !! Z.to_nat idx = Some (Some v) ->
  get a idx = ([EvLoad idx], Ok v).
Proof.
  intros Hb Hi Hv. unfold get.
  destruct (assert_range_pass a idx Hi) as [-> ->]. rewrite !bind_ret.
  rewrite Hb. apply load_inside; [lia | exact Hv].
Qed.

Lemma get_slot a idx v :
  0 <= idx < length a -> slot a idx = Some (Some v) ->
  get a idx = ([EvLoad idx], Ok v).
Proof.
  intros Hi Hv. unfold slot, slot_at in Hv. destruct (data a) as [b |] eqn:Hb; [| discriminate].
  replace (0 <=? idx) with true in Hv by holds.
  eapply get_in_range; eauto.
Qed.

Lemma set_out_of_range a idx v :
  idx < 0 \/ length a <= idx ->
  set a idx v = ([], Abort (if idx <? length a then RangeErrorStart else RangeErrorEnd)).
Proof.
  intros H. unfold set, assert.
  destruct (idx <? length a) eqn:Hlt; [| reflexivity].
  apply Z.ltb_lt in Hlt. rewrite bind_ret.
  replace (idx >=? 0) with false by fails.
  reflexivity.
Qed.

Lemma popBack_in_range a :
  INT_MIN < length a <= INT_MAX ->
  popBack a = ([], Ok (with_length a (length a - 1))).
Proof.
  intros H. unfold popBack. rewrite int_arith_in_range by lia.
  rewrite bind_ret. reflexivity.
Qed.

(** Growth of a full array: the events are those of [malloc], [memcpy] and
    [free]; the doubling of [capacity] overflows from [2 ^ 30] on. *)
Lemma grow_full a (b : block) :
  data a = Some b -> block_size b = capacity a -> length a = capacity a ->
  0 <= capacity a <= INT_MAX ->
  grow a = ([EvMalloc (8 * capacity a); EvMemcpy (4 * capacity a); EvFree],
            if capacity a * 2 <=? INT_MAX
            then Ok {| data := Some (b ++ replicate (Z.to_nat (capacity a)) None);
                       capacity := capacity a * 2; length := length a |}
            else Undefined).
Proof.
  intros Hb Hs Hl Hc. unfold grow.
  rewrite size_of_slots_twice by exact Hc.
  rewrite Hl, size_of_slots by exact Hc.
  replace (8 * capacity a) with (4 * (2 * capacity a)) by lia.
  rewrite malloc_slots by lia. rewrite bind_ok, Hb.
  rewrite memcpy_prefix;
    [| lia | unfold block_size; rewrite length_replicate; lia | lia].
  rewrite bind_ok. unfold free, emit. rewrite bind_ok.
  rewrite take_ge by (unfold block_size in Hs; lia).
  rewrite drop_replicate.
  replace (Z.to_nat (2 * capacity a) - Z.to_nat (capacity a))%nat
    with (Z.to_nat (capacity a)) by lia.
  unfold with_data. simpl capacity.
  destruct (capacity a * 2 <=? INT_MAX) eqn:Hd.
  - apply Z.leb_le in Hd. rewrite int_arith_in_range by (unfold INT_MIN; lia).
    rewrite bind_ret. unfold ret, with_capacity. rewrite !after_pair.
    simpl. rewrite Hl. reflexivity.
  - apply Z.leb_gt in Hd. rewrite int_arith_overflow by lia. reflexivity.
Qed.

Lemma append_room a (b : block) v :
  data a = Some b -> length a <> capacity a ->
  0 <= length a < block_size b -> length a < INT_MAX ->
  append a v = ([EvStore (length a)],
                Ok {| data := Some (<[Z.to_nat (length a) := Some v]> b);
                      capacity := capacity a; length := length a + 1 |}).
Proof.
  intros Hb Hne Hl Hmax. unfold append.
  replace (length a =? capacity a) with false by fails.
  rewrite bind_ret, Hb, store_inside by exact Hl. rewrite bind_ok.
  simpl length. rewrite int_arith_in_range by (unfold INT_MIN; lia).
  rewrite bind_ret. reflexivity.
Qed.

Lemma append_full a (b : block) v :
  data a = Some b -> block_size b = capacity a -> length a = capacity a ->
  1 <= capacity a -> capacity a * 2 <= INT_MAX ->
  append a v = ([EvMalloc (8 * capacity a); EvMemcpy (4 * capacity a); EvFree;
                 EvStore (length a)],
                Ok {| data := Some (<[Z.to_nat (length a) := Some v]>
                                      (b ++ replicate (Z.to_nat (capacity a)) None));
                      capacity := capacity a * 2; length := length a + 1 |}).
Proof.
  intros Hb Hs Hl H1 H2. unfold append.
  replace (length a =? capacity a) with true by holds.
  rewrite (grow_full a b) by (auto; lia).
  replace (capacity a * 2 <=? INT_MAX) with true by holds.
  rewrite bind_ok. simpl data. simpl length.
  rewrite store_inside
    by (unfold block_size in *; rewrite length_app, length_replicate; lia).
  rewrite bind_ok. simpl length.
  rewrite int_arith_in_range by (unfold INT_MIN; lia).
  rewrite bind_ret. reflexivity.
Qed.

(** A full array of capacity 0: the new block has no slot either, and the
    store that follows is outside it. *)
Lemma append_full_zero a (b : block) v :
  data a = Some b -> block_size b = capacity a -> length a = capacity a ->
  capacity a = 0 ->
  append a v = ([EvMalloc 0; EvMemcpy 0; EvFree; EvStore 0], Undefined).
Proof.
  intros Hb Hs Hl H0. unfold append.
  replace (length a =? capacity a) with true by holds.
  rewrite (grow_full a b) by (auto; unfold INT_MAX; lia).
  rewrite H0 in *. simpl. rewrite Hl.
  rewrite store_outside
    by (right; unfold block_size in *; rewrite length_app; simpl; lia).
  reflexivity.
Qed.

Lemma append_full_overflow a (b : block) v :
  data a = Some b -> block_size b = capacity a -> length a = capacity a ->
  capacity a <= INT_MAX -> INT_MAX < capacity a * 2 ->
  append a v = ([EvMalloc (8 * capacity a); EvMemcpy (4 * capacity a); EvFree],
                Undefined).
Proof.
  intros Hb Hs Hl H1 H2. unfold append.
  replace (length a =? capacity a) with true by holds.
  rewrite (grow_full a b) by (auto; unfold INT_MAX in *; lia).
  replace (capacity a * 2 <=? INT_MAX) with false by fails.
  reflexivity.
Qed.

(** ** Well-formedness is kept *)

Lemma initialised_intro (b : block) n :
  (forall i, (i < n)%nat -> exists v, b !! i = Some (Some v)) ->
  Forall is_int (take n b).
Proof.
  intros H. apply Forall_lookup. intros i x Hx.
  apply lookup_take_Some in Hx as [Hx Hi].
  destruct (H i Hi) as [v Hv]. rewrite Hv in Hx. injection Hx as <-. exact I.
Qed.

Lemma wf_intro (b : block) c l :
  block_size b = c -> 0 <= l <= c -> c <= INT_MAX ->
  (forall i, (i < Z.to_nat l)%nat -> exists v, b !! i = Some (Some v)) ->
  wf {| data := Some b; capacity := c; length := l |} = true.
Proof.
  intros Hs Hl Hc Hi. apply wf_spec. exists b. simpl.
  repeat split; try assumption; try lia. apply initialised_intro, Hi.
Qed.

Lemma wf_newArray c a :
  0 <= c <= INT_MAX -> result (newArray c) = Ok a -> wf a = true.
Proof.
  intros Hc Ha. rewrite newArray_int in Ha by exact Hc. injection Ha as <-.
  apply wf_intro; [| lia | lia |].
  - unfold block_size. rewrite length_replicate. lia.
  - intros i Hi. simpl in Hi. lia.
Qed.

Lemma wf_set a idx v a' :
  wf a = true -> result (set a idx v) = Ok a' ->
  wf a' = true /\ length a' = length a /\ capacity a' = capacity a.
Proof.
  intros Hwf Ha. pose proof Hwf as Hwf'.
  apply wf_spec in Hwf as (b & Hb & Hs & Hl & Hc & Hall).
  destruct (Z.lt_ge_cases idx 0) as [Hneg | Hpos];
    [rewrite set_out_of_range in Ha by lia; discriminate |].
  destruct (Z.le_gt_cases (length a) idx) as [Hge | Hlt];
    [rewrite set_out_of_range in Ha by lia; discriminate |].
  rewrite (set_in_range a b) in Ha by (auto; lia). injection Ha as <-.
  unfold with_data. simpl. split; [| split; reflexivity].
  apply wf_intro; try assumption.
  - unfold block_size in *. rewrite length_insert. exact Hs.
  - intros i Hi.
    destruct (initialised_lookup b _ i Hall Hi) as [w Hw];
      [unfold block_size in Hs; lia |].
    destruct (decide (i = Z.to_nat idx)) as [-> | Hne].
    + exists v. apply list_lookup_insert_eq. unfold block_size in Hs. lia.
    + exists w. rewrite list_lookup_insert_ne by congruence. exact Hw.
Qed.

Lemma wf_append a v a' :
  wf a = true -> result (append a v) = Ok a' ->
  wf a' = true /\ length a' = length a + 1 /\
  capacity a' = (if length a =? capacity a then capacity a * 2 else capacity a).
Proof.
  intros Hwf Ha.
  apply wf_spec in Hwf as (b & Hb & Hs & Hl & Hc & Hall).
  assert (Hinit : forall i, (i < Z.to_nat (length a))%nat ->
                            exists w, b !! i = Some (Some w)).
  { intros i Hi. apply (initialised_lookup b _ i Hall Hi).
    unfold block_size in Hs. lia. }
  destruct (length a =? capacity a) eqn:Hfull.
  - apply Z.eqb_eq in Hfull.
    destruct (Z.eq_dec (capacity a) 0) as [H0 | H0];
      [rewrite (append_full_zero a b) in Ha by auto; discriminate |].
    destruct (Z.lt_ge_cases INT_MAX (capacity a * 2)) as [Hov | Hfit];
      [rewrite (append_full_overflow a b) in Ha by auto; discriminate |].
    rewrite (append_full a b) in Ha by (auto; lia). injection Ha as <-.
    simpl. split; [| split; reflexivity].
    apply wf_intro; try lia.
    + unfold block_size in *.
      rewrite length_insert, length_app, length_replicate. lia.
    + intros i Hi.
      destruct (decide (i = Z.to_nat (length a))) as [-> | Hne].
      * exists v. apply list_lookup_insert_eq.
        unfold block_size in Hs. rewrite length_app, length_replicate. lia.
      * rewrite list_lookup_insert_ne by congruence.
        rewrite lookup_app_l by (unfold block_size in Hs; lia).
        apply Hinit. lia.
  - apply Z.eqb_neq in Hfull.
    rewrite (append_room a b) in Ha by (auto; lia). injection Ha as <-.
    simpl. split; [| split; reflexivity].
    apply wf_intro; try lia.
    + unfold block_size in *. rewrite length_insert. exact Hs.
    + intros i Hi.
      destruct (decide (i = Z.to_nat (length a))) as [-> | Hne].
      * exists v. apply list_lookup_insert_eq. unfold block_size in Hs. lia.
      * rewrite list_lookup_insert_ne by congruence. apply Hinit. lia.
Qed.

Lemma wf_popBack a a' :
  wf a = true -> 0 < length a -> result (popBack a) = Ok a' ->
  wf a' = true /\ length a' = length a - 1 /\ capacity a' = capacity a.
Proof.
  intros Hwf Hpos Ha.
  apply wf_spec in Hwf as (b & Hb & Hs & Hl & Hc & Hall).
  rewrite popBack_in_range in Ha by (unfold INT_MIN; lia). injection Ha as <-.
  unfold with_length. rewrite Hb. simpl. split; [| split; reflexivity].
  apply wf_intro; try lia.
  intros i Hi. apply (initialised_lookup b _ i Hall); [lia |].
  unfold block_size in Hs. lia.
Qed.

Lemma perform_get_state a idx a' :
  result (perform a (OpGet idx)) = Ok a' -> a' = a.
Proof.
  simpl. rewrite result_bind. destruct (result (get a idx)); try discriminate.
  simpl. congruence.
Qed.

Lemma wf_perform a o a' :
  wf a = true -> pop_nonempty a o = true -> result (perform a o) = Ok a' ->
  wf a' = true.
Proof.
  intros Hwf Hguard Ha. destruct o as [idx | idx v | v | |].
  - apply perform_get_state in Ha as ->. exact Hwf.
  - apply (wf_set a idx v a' Hwf Ha).
  - apply (wf_append a v a' Hwf Ha).
  - simpl in Hguard. apply Z.ltb_lt in Hguard. apply (wf_popBack a a' Hwf Hguard Ha).
  - simpl in Ha. injection Ha as <-. exact Hwf.
Qed.

Lemma reachable_wf a : reachable_under pop_nonempty a -> wf a = true.
Proof.
  induction 1 as [c a Hc Ha | a o a' _ IH Hguard Ha].
  - exact (wf_newArray c a Hc Ha).
  - exact (wf_perform a o a' IH Hguard Ha).
Qed.

(** ** What [get] and [set] touch *)

(** A load is one event, and its value is that of the slot. *)
Lemma load_slot a idx :
  load (data a) idx
  = ([EvLoad idx],
     match slot a idx with Some (Some v) => Ok v | _ => Undefined end).
Proof.
  unfold load, slot, slot_at, emit. rewrite bind_ok. destruct (data a) as [b |]; [| reflexivity].
  destruct (0 <=? idx) eqn:H0; [| reflexivity]. apply Z.leb_le in H0.
  destruct (idx <? block_size b) eqn:Hlt; simpl.
  - destruct (b !! Z.to_nat idx) as [[w |] |]; reflexivity.
  - apply Z.ltb_ge in Hlt. rewrite lookup_ge_None_2; [reflexivity |].
    unfold block_size in Hlt. lia.
Qed.

Lemma get_unfold a idx :
  get a idx =
  if idx <? length a
  then if idx >=? 0
       then ([EvLoad idx],
             match slot a idx with Some (Some v) => Ok v | _ => Undefined end)
       else ([], Abort RangeErrorStart)
  else ([], Abort RangeErrorEnd).
Proof.
  unfold get, assert. destruct (idx <? length a); [| reflexivity].
  rewrite bind_ret. destruct (idx >=? 0); [| reflexivity].
  rewrite bind_ret. apply load_slot.
Qed.

Lemma set_unfold a idx v :
  set a idx v =
  if idx <? length a
  then if idx >=? 0
       then after [EvStore idx]
              match slot a idx with
              | Some _ => ret (with_data a (<[Z.to_nat idx := Some v]> <$> data a))
              | None => undefined
              end
       else ([], Abort RangeErrorStart)
  else ([], Abort RangeErrorEnd).
Proof.
  unfold set, assert. destruct (idx <? length a); [| reflexivity].
  rewrite bind_ret. destruct (idx >=? 0) eqn:H0; [| reflexivity].
  rewrite bind_ret. rewrite Z.geb_leb in H0. apply Z.leb_le in H0.
  unfold store, slot, slot_at, emit. rewrite bind_ok.
  destruct (data a) as [b |]; [| reflexivity].
  replace (0 <=? idx) with true by holds.
  destruct (idx <? block_size b) eqn:Hlt; simpl.
  - apply Z.ltb_lt in Hlt.
    destruct (lookup_lt_is_Some_2 b (Z.to_nat idx)) as [x ->];
      [unfold block_size in Hlt; lia | reflexivity].
  - apply Z.ltb_ge in Hlt. rewrite lookup_ge_None_2; [reflexivity |].
    unfold block_size in Hlt. lia.
Qed.

Lemma slot_at_insert (b : block) idx v j :
  0 <= idx < block_size b ->
  slot_at (Some (<[Z.to_nat idx := Some v]> b)) j
  = if decide (j = idx) then Some (Some v) else slot_at (Some b) j.
Proof.
  intros Hi. unfold slot_at.
  destruct (decide (j = idx)) as [-> | Hne].
  - replace (0 <=? idx) with true by holds.
    apply list_lookup_insert_eq. unfold block_size in Hi. lia.
  - destruct (0 <=? j) eqn:Hj; [| reflexivity]. apply Z.leb_le in Hj.
    apply list_lookup_insert_ne. lia.
Qed.

(** [get] is decided by [length] and by the one slot it is asked for. *)
Lemma get_ext a a' idx :
  length a' = length a -> slot a' idx = slot a idx -> get a' idx = get a idx.
Proof. intros Hl Hs. rewrite !get_unfold, Hl, Hs. reflexivity. Qed.

(** * The properties *)

(** ** Bounds checks of [get] and [set] *)

(** C5. [get] and [set] stop with a range error exactly when the index is
    below 0 or not below [length]; they then have touched no memory (no
    event); and whenever they do touch the data block, it is at the index
    asked for, which lies in [0, length): [get] reads no slot at or beyond
    [length]. *)
Theorem range_checks a idx v :
  (is_abort (result (get a idx)) = true <-> idx < 0 \/ length a <= idx) /\
  (is_abort (result (set a idx v)) = true <-> idx < 0 \/ length a <= idx) /\
  (idx < 0 \/ length a <= idx ->
   events (get a idx) = [] /\ events (set a idx v) = []) /\
  (forall e, In e (events (get a idx)) -> e = EvLoad idx /\ 0 <= idx < length a) /\
  (forall e, In e (events (set a idx v)) -> e = EvStore idx /\ 0 <= idx < length a).
Proof.
  rewrite get_unfold, set_unfold.
  destruct (idx <? length a) eqn:Hlt;
    [apply Z.ltb_lt in Hlt | apply Z.ltb_ge in Hlt];
    [destruct (idx >=? 0) eqn:H0; rewrite Z.geb_leb in H0;
       [apply Z.leb_le in H0 | apply Z.leb_gt in H0] |].
  - destruct (slot a idx) as [[w |] |]; simpl;
      repeat split; intros; try discriminate; try lia;
      match goal with
      | H : _ \/ False |- _ => destruct H as [<- | []]; reflexivity
      end.
  - simpl. repeat split; intros; try discriminate; try lia; try contradiction;
      auto.
  - simpl. repeat split; intros; try discriminate; try lia; try contradiction;
      auto.
Qed.

(** ** [popBack] *)

(** C6, as the code has it: [popBack] has no failure of its own.  It never
    stops with an error, and on an array of length 0 it returns with
    [length] at -1, the capacity and the data block as they were, and no
    memory touched. *)
Theorem popBack_on_empty a :
  length a = 0 ->
  popBack a = ([], Ok {| data := data a; capacity := capacity a; length := -1 |}) /\
  (forall a', is_abort (result (popBack a')) = false).
Proof.
  intros H0. split.
  - rewrite popBack_in_range by (rewrite H0; unfold INT_MIN, INT_MAX; lia).
    unfold with_length. rewrite H0. reflexivity.
  - intros a'. unfold popBack, int_arith.
    destruct (in_int_range (length a' - 1)); reflexivity.
Qed.

Lemma popBack_on_empty_witness :
  length empty_of_two = 0 /\
  popBack empty_of_two
  = ([], Ok {| data := Some [None; None]; capacity := 2; length := -1 |}).
Proof.
  split; [reflexivity |].
  exact (proj1 (popBack_on_empty empty_of_two eq_refl)).
Defined.

(** C6 as the specification states it fails: called on the empty array that
    [newArray(2)] makes, [popBack] does not fail and changes the state. *)
Lemma popBack_on_empty_returns :
  result (newArray 2) = Ok empty_of_two /\
  length empty_of_two = 0 /\
  is_abort (result (popBack empty_of_two)) = false /\
  result (popBack empty_of_two) <> Ok empty_of_two /\
  result (popBack empty_of_two)
  = Ok {| data := Some [None; None]; capacity := 2; length := -1 |}.
Proof. repeat split. discriminate. Qed.

(** C7. On a well-formed array of length [n > 0], [popBack] returns with
    length [n - 1]; the capacity and the data block are the same, no memory
    is allocated, copied or released (no event), and [get] gives at every
    index below [n - 1] the value it gave before. *)
Theorem popBack_keeps_rest a :
  wf a = true -> 0 < length a ->
  exists a',
    popBack a = ([], Ok a') /\
    length a' = length a - 1 /\
    capacity a' = capacity a /\
    data a' = data a /\
    forall i, 0 <= i < length a - 1 ->
      exists x, result (get a i) = Ok x /\ result (get a' i) = Ok x.
Proof.
  intros Hwf Hpos. exists (with_length a (length a - 1)).
  pose proof Hwf as Hwf'.
  apply wf_spec in Hwf' as (b & Hb & Hs & Hl & Hc & Hall).
  split; [apply popBack_in_range; unfold INT_MIN; lia |].
  repeat split. intros i Hi.
  destruct (wf_slot a i Hwf) as [x Hx]; [lia |]. exists x.
  rewrite (get_slot a i x), (get_slot (with_length a (length a - 1)) i x);
    auto; simpl; lia.
Qed.

Lemma popBack_keeps_rest_witness :
  wf three_of_four = true /\ 0 < length three_of_four /\
  exists a',
    popBack three_of_four = ([], Ok a') /\
    length a' = length three_of_four - 1 /\
    capacity a' = capacity three_of_four /\
    data a' = data three_of_four /\
    forall i, 0 <= i < length three_of_four - 1 ->
      exists x, result (get three_of_four i) = Ok x /\ result (get a' i) = Ok x.
Proof.
  split; [reflexivity |]. split; [reflexivity |].
  apply (popBack_keeps_rest three_of_four); reflexivity.
Defined.

(** ** [popFront] *)

(** C8. [popFront] returns the array as it was: same length, same
    capacity, same data block, hence the same value of [get] at every index;
    it touches no memory. *)
Theorem popFront_no_effect a :
  exists a',
    popFront a = ([], Ok a') /\
    length a' = length a /\
    capacity a' = capacity a /\
    data a' = data a /\
    forall i, get a' i = get a i.
Proof. exists a. repeat split. Qed.

(** ** [set] *)

(** C9. On a well-formed array and an index in [0, length), [set] does one
    store, at that index; afterwards that slot holds the value, every other
    slot of the block (below [length] or not) is as before, and [length] and
    [capacity] are the same. *)
Theorem set_changes_one_slot a idx v :
  wf a = true -> 0 <= idx < length a ->
  exists a',
    set a idx v = ([EvStore idx], Ok a') /\
    length a' = length a /\
    capacity a' = capacity a /\
    slot a' idx = Some (Some v) /\
    forall j, j <> idx -> slot a' j = slot a j.
Proof.
  intros Hwf Hi. apply wf_spec in Hwf as (b & Hb & Hs & Hl & Hc & Hall).
  exists (with_data a (Some (<[Z.to_nat idx := Some v]> b))).
  split; [apply set_in_range; auto; lia |].
  split; [reflexivity |]. split; [reflexivity |]. split.
  - unfold slot. cbn [with_data data]. rewrite slot_at_insert by lia.
    rewrite decide_True; reflexivity.
  - intros j Hj. unfold slot. cbn [with_data data].
    rewrite slot_at_insert, Hb by lia.
    rewrite decide_False; [reflexivity | exact Hj].
Qed.

Lemma set_changes_one_slot_witness :
  wf three_of_four = true /\ 0 <= 1 < length three_of_four /\
  exists a',
    set three_of_four 1 20 = ([EvStore 1], Ok a') /\
    length a' = length three_of_four /\
    capacity a' = capacity three_of_four /\
    slot a' 1 = Some (Some 20) /\
    forall j, j <> 1 -> slot a' j = slot three_of_four j.
Proof.
  split; [reflexivity |]. split; [simpl; lia |].
  apply (set_changes_one_slot three_of_four 1 20); [reflexivity | simpl; lia].
Defined.

(** C10. On a well-formed array and an index [i] in [0, length), [get] at
    [i] after [set] at [i] of [v] returns [v], and [get] at every other
    index [j] in [0, length) returns the value it returned before. *)
Theorem get_after_set a i v :
  wf a = true -> 0 <= i < length a ->
  exists a',
    result (set a i v) = Ok a' /\
    result (get a' i) = Ok v /\
    forall j, 0 <= j < length a -> j <> i ->
      exists x, result (get a j) = Ok x /\ result (get a' j) = Ok x.
Proof.
  intros Hwf Hi. pose proof Hwf as Hwf'.
  apply wf_spec in Hwf' as (b & Hb & Hs & Hl & Hc & Hall).
  exists (with_data a (Some (<[Z.to_nat i := Some v]> b))).
  split; [rewrite (set_in_range a b) by (auto; lia); reflexivity |]. split.
  - rewrite (get_slot _ i v); [reflexivity | exact Hi |].
    unfold slot. cbn [with_data data]. rewrite slot_at_insert by lia.
    rewrite decide_True; reflexivity.
  - intros j Hj Hne. destruct (wf_slot a j Hwf Hj) as [x Hx]. exists x.
    rewrite (get_slot a j x) by auto.
    rewrite (get_slot _ j x); [split; reflexivity | exact Hj |].
    unfold slot. cbn [with_data data]. rewrite slot_at_insert by lia.
    rewrite decide_False by exact Hne. rewrite <- Hb. exact Hx.
Qed.

Lemma get_after_set_witness :
  wf three_of_four = true /\ 0 <= 1 < length three_of_four /\
  exists a',
    result (set three_of_four 1 20) = Ok a' /\
    result (get a' 1) = Ok 20 /\
    forall j, 0 <= j < length three_of_four -> j <> 1 ->
      exists x, result (get three_of_four j) = Ok x /\ result (get a' j) = Ok x.
Proof.
  split; [reflexivity |]. split; [simpl; lia |].
  apply (get_after_set three_of_four 1 20); [reflexivity | simpl; lia].
Defined.

(** ** The invariant *)

(** C1 as the specification states it fails: [newArray(2)] followed by
    [popBack] returns an array whose length is -1. *)
Lemma popBack_reaches_negative_length :
  result (do a <- newArray 2; popBack a) = Ok popped_below_zero /\
  reachable popped_below_zero /\
  ~ (0 <= length popped_below_zero <= capacity popped_below_zero).
Proof.
  split; [reflexivity |]. split.
  - apply (reachable_step any_call empty_of_two OpPopBack); [| reflexivity ..].
    apply (reachable_create any_call 2); [unfold INT_MAX; lia | reflexivity].
  - simpl. lia.
Qed.

(** C1, as the code has it: in every array reached from [newArray] by
    calls of [get], [set], [append], [popBack] and [popFront] that return,
    where [popBack] is called only on an array of positive length,
    [0 <= length <= capacity]. *)
Theorem length_within_capacity a :
  reachable_under pop_nonempty a -> 0 <= length a <= capacity a.
Proof.
  intros Hreach. apply reachable_wf, wf_spec in Hreach.
  destruct Hreach as (b & _ & _ & Hl & _). exact Hl.
Qed.

Lemma length_within_capacity_witness :
  reachable_under pop_nonempty three_of_four /\
  0 <= length three_of_four <= capacity three_of_four.
Proof.
  assert (reachable_under pop_nonempty three_of_four) as Hreach.
  { apply (reachable_step pop_nonempty
             {| data := Some [Some 10; Some 20; Some 30; None];
                capacity := 4; length := 3 |} (OpSet 1 15));
      [| reflexivity ..].
    apply (reachable_step pop_nonempty
             {| data := Some [Some 10; Some 20]; capacity := 2; length := 2 |}
             (OpAppend 30)); [| reflexivity ..].
    apply (reachable_step pop_nonempty
             {| data := Some [Some 10; None]; capacity := 2; length := 1 |}
             (OpAppend 20)); [| reflexivity ..].
    apply (reachable_step pop_nonempty empty_of_two (OpAppend 10));
      [| reflexivity ..].
    apply (reachable_create pop_nonempty 2); [unfold INT_MAX; lia | reflexivity]. }
  split; [exact Hreach |]. exact (length_within_capacity three_of_four Hreach).
Defined.

(** ** [append] *)

(** C2: [newArray(0)] followed by one [append].  The array is full, so
    [append] grows it: it asks for [4 * 0 * 2 = 0] bytes, copies 0 bytes,
    frees the old block and doubles the capacity to 0; the store to
    [data[0]] is then outside the new block.  No array of length 1 comes
    out of it. *)
Theorem append_after_newArray_zero x :
  result (newArray 0) = Ok {| data := Some []; capacity := 0; length := 0 |} /\
  (do a <- newArray 0; append a x)
  = ([EvMalloc sizeof_Array; EvMalloc 0; EvMalloc 0; EvMemcpy 0; EvFree; EvStore 0],
     Undefined).
Proof. split; reflexivity. Qed.

(** C3 at initial capacity 0: whatever the values, the first [append]
    stores outside the block, so the appends have no defined result. *)
Theorem appendAll_after_newArray_zero v values :
  result (do a <- newArray 0; appendAll a (v :: values)) = Undefined.
Proof.
  rewrite result_bind. change (result (newArray 0))
    with (Ok {| data := Some []; capacity := 0; length := 0 |}).
  cbn [appendAll]. rewrite result_bind. reflexivity.
Qed.

(** One [append] on a well-formed array with room to grow. *)
Lemma append_correct a v :
  wf a = true -> 1 <= capacity a -> length a < 2 ^ 30 ->
  exists a',
    result (append a v) = Ok a' /\
    wf a' = true /\ 1 <= capacity a' /\
    length a' = length a + 1 /\
    slot a' (length a) = Some (Some v) /\
    forall j, 0 <= j < length a -> slot a' j = slot a j.
Proof.
  intros Hwf Hcap Hlen. pose proof Hwf as Hwf'.
  apply wf_spec in Hwf' as (b & Hb & Hs & Hl & Hc & Hall).
  assert (exists b' c',
            result (append a v)
            = Ok {| data := Some (<[Z.to_nat (length a) := Some v]> b');
                    capacity := c'; length := length a + 1 |} /\
            1 <= c' /\ length a < block_size b' /\
            forall j, 0 <= j < length a -> b' !! Z.to_nat j = b !! Z.to_nat j)
    as (b' & c' & Ha & Hc' & Hb' & Hsame).
  { destruct (Z.eq_dec (length a) (capacity a)) as [Hfull | Hroom].
    - exists (b ++ replicate (Z.to_nat (capacity a)) None), (capacity a * 2).
      rewrite (append_full a b) by (auto; unfold INT_MAX; lia).
      split; [reflexivity |]. split; [lia |]. split.
      + unfold block_size in *. rewrite length_app, length_replicate. lia.
      + intros j Hj. apply lookup_app_l. unfold block_size in Hs. lia.
    - exists b, (capacity a).
      rewrite (append_room a b) by (auto; lia).
      split; [reflexivity |]. split; [lia |]. split; [lia |]. reflexivity. }
  eexists. split; [exact Ha |].
  destruct (wf_append a v _ Hwf Ha) as (Hwf1 & _ & _).
  split; [exact Hwf1 |]. split; [exact Hc' |]. split; [reflexivity |].
  unfold slot. cbn [data length]. split.
  - rewrite slot_at_insert by lia. rewrite decide_True; reflexivity.
  - intros j Hj. rewrite slot_at_insert by lia.
    rewrite decide_False by lia. rewrite Hb. unfold slot_at.
    replace (0 <=? j) with true by holds.
    apply Hsame, Hj.
Qed.

(** Appends in sequence, from a well-formed array of capacity at least 1
    and up to [2 ^ 30] elements in all: the values appended are in the
    slots after the old ones, in order. *)
Lemma appendAll_correct values : forall a,
  wf a = true -> 1 <= capacity a ->
  length a + Z.of_nat (List.length values) <= 2 ^ 30 ->
  exists a',
    result (appendAll a values) = Ok a' /\
    wf a' = true /\
    length a' = length a + Z.of_nat (List.length values) /\
    (forall j, 0 <= j < length a -> slot a' j = slot a j) /\
    (forall i v, values !! i = Some v ->
       slot a' (length a + Z.of_nat i) = Some (Some v)).
Proof.
  induction values as [| v values IH]; intros a Hwf Hcap Hlen.
  - exists a. simpl. split; [reflexivity |]. split; [exact Hwf |].
    split; [lia |]. split; [reflexivity |]. intros i w Hw. discriminate.
  - simpl List.length in Hlen.
    assert (0 <= length a) as Hpos
      by (apply wf_spec in Hwf as (b & _ & _ & Hl & _); lia).
    destruct (append_correct a v Hwf Hcap) as (a1 & Ha1 & Hwf1 & Hcap1 & Hl1 & Hv & Hold);
      [lia |].
    destruct (IH a1 Hwf1 Hcap1) as (a' & Ha' & Hwf' & Hl' & Hold' & Hnew');
      [lia |].
    exists a'. cbn [appendAll]. rewrite result_bind, Ha1.
    split; [exact Ha' |]. split; [exact Hwf' |].
    split; [simpl List.length; lia |]. split.
    + intros j Hj. rewrite Hold' by lia. apply Hold, Hj.
    + intros [| i] w Hw.
      * injection Hw as <-. change (Z.of_nat 0) with 0.
        rewrite Z.add_0_r, Hold' by lia. exact Hv.
      * replace (length a + Z.of_nat (S i)) with (length a1 + Z.of_nat i) by lia.
        apply Hnew', Hw.
Qed.

(** From [newArray(c)] with [c >= 1]: after the appends of up to [2 ^ 30]
    values, [length] is their number and [get] returns them in order. *)
Lemma appendAll_after_newArray c values :
  1 <= c <= INT_MAX -> Z.of_nat (List.length values) <= 2 ^ 30 ->
  exists a,
    result (do a0 <- newArray c; appendAll a0 values) = Ok a /\
    length a = Z.of_nat (List.length values) /\
    forall i v, values !! i = Some v -> result (get a (Z.of_nat i)) = Ok v.
Proof.
  intros Hc Hn. rewrite result_bind, newArray_int by lia.
  cbn [result snd].
  destruct (appendAll_correct values
              {| data := Some (replicate (Z.to_nat c) None);
                 capacity := c; length := 0 |})
    as (a & Ha & Hwf & Hl & _ & Hnew).
  - apply (wf_newArray c); [lia | rewrite newArray_int by lia; reflexivity].
  - simpl. lia.
  - simpl. lia.
  - exists a. simpl in Hl, Hnew. split; [exact Ha |]. split; [exact Hl |].
    intros i v Hv. rewrite (get_slot a (Z.of_nat i) v); [reflexivity | |].
    + apply lookup_lt_Some in Hv. lia.
    + apply Hnew, Hv.
Qed.

(** C4. From [newArray(2)] the capacity stays 2 for two appends, is 4
    after the third and the fourth, and 8 after the fifth; and an [append]
    that returns on a well-formed array doubles the capacity exactly when it
    found [length == capacity]. *)
Theorem capacity_doubles_when_full v1 v2 v3 v4 v5 :
  result (do a <- newArray 2; appendAll a [v1; v2])
  = Ok {| data := Some [Some v1; Some v2]; capacity := 2; length := 2 |} /\
  result (do a <- newArray 2; appendAll a [v1; v2; v3])
  = Ok {| data := Some [Some v1; Some v2; Some v3; None];
          capacity := 4; length := 3 |} /\
  result (do a <- newArray 2; appendAll a [v1; v2; v3; v4])
  = Ok {| data := Some [Some v1; Some v2; Some v3; Some v4];
          capacity := 4; length := 4 |} /\
  result (do a <- newArray 2; appendAll a [v1; v2; v3; v4; v5])
  = Ok {| data := Some [Some v1; Some v2; Some v3; Some v4; Some v5;
                        None; None; None];
          capacity := 8; length := 5 |} /\
  (forall a v a',
     wf a = true -> result (append a v) = Ok a' ->
     capacity a' = if length a =? capacity a then capacity a * 2 else capacity a).
Proof.
  repeat split; try reflexivity.
  intros a v a' Hwf Ha. apply (wf_append a v a' Hwf Ha).
Qed.

(** ** The run of [main] *)

(** [main]: [newArray(2)], appends of 10, 20 and 30, [set(a, 1, 15)], then
    [popBack]: the array is {10, 15} in a block of capacity 4. *)
Example main_run :
  result (do a <- newArray 2; do a <- append a 10; do a <- append a 20;
          do a <- append a 30; do a <- set a 1 15; popBack a)
  = Ok {| data := Some [Some 10; Some 15; Some 30; None];
          capacity := 4; length := 2 |}.
Proof. reflexivity. Qed.

(** * Further lemmas *)

(** ** The elements of a well-formed array *)

Lemma omap_id_fmap_Some (vs : list Z) : omap id (Some <$> vs) = vs.
Proof. induction vs as [| v vs IH]; [reflexivity |]. simpl. f_equal. exact IH. Qed.

Lemma fmap_Some_omap_id (l : list (option Z)) :
  Forall is_int l -> Some <$> omap id l = l.
Proof.
  induction 1 as [| x l Hx _ IH]; [reflexivity |].
  destruct x as [v |]; [| contradiction]. simpl. f_equal. exact IH.
Qed.

Lemma elements_take a (b : block) :
  wf a = true -> data a = Some b ->
  take (Z.to_nat (length a)) b = Some <$> elements a.
Proof.
  intros Hwf Hb. apply wf_spec in Hwf as (b' & Hb' & _ & _ & _ & Hall).
  rewrite Hb in Hb'. injection Hb' as <-.
  unfold elements. rewrite Hb. symmetry. apply fmap_Some_omap_id, Hall.
Qed.

Lemma elements_intro (b : block) c l vs :
  take (Z.to_nat l) b = Some <$> vs ->
  elements {| data := Some b; capacity := c; length := l |} = vs.
Proof. intros H. unfold elements. simpl. rewrite H. apply omap_id_fmap_Some. Qed.

Lemma elements_length a :
  wf a = true -> Z.of_nat (List.length (elements a)) = length a.
Proof.
  intros Hwf. pose proof Hwf as Hwf'.
  apply wf_spec in Hwf' as (b & Hb & Hs & Hl & _ & _).
  pose proof (f_equal List.length (elements_take a b Hwf Hb)) as Hlen.
  rewrite length_fmap, length_take in Hlen. unfold block_size in Hs. lia.
Qed.

Lemma elements_slot a i v :
  wf a = true ->
  (elements a !! i = Some v <->
   slot a (Z.of_nat i) = Some (Some v) /\ Z.of_nat i < length a).
Proof.
  intros Hwf. pose proof Hwf as Hwf'.
  apply wf_spec in Hwf' as (b & Hb & Hs & Hl & _ & _).
  pose proof (elements_take a b Hwf Hb) as Htake.
  unfold slot, slot_at. rewrite Hb.
  replace (0 <=? Z.of_nat i) with true by holds. rewrite Nat2Z.id.
  assert (take (Z.to_nat (length a)) b !! i = Some <$> elements a !! i) as Hk
    by (rewrite Htake; apply list_lookup_fmap).
  split.
  - intros Hv. rewrite Hv in Hk. apply lookup_take_Some in Hk as [Hk Hi].
    split; [exact Hk | lia].
  - intros [Hv Hi].
    assert (take (Z.to_nat (length a)) b !! i = Some (Some v)) as Hv'
      by (apply lookup_take_Some; split; [exact Hv | lia]).
    rewrite Hk in Hv'. destruct (elements a !! i); simpl in Hv'; congruence.
Qed.

Lemma take_succ_insert (b : block) n x :
  (n < List.length b)%nat -> take (S n) (<[n := x]> b) = take n b ++ [x].
Proof.
  intros Hn. rewrite (take_S_r _ n x) by (apply list_lookup_insert_eq; exact Hn).
  rewrite take_insert_ge by lia. reflexivity.
Qed.

(** ** What a call that returns does to the elements *)

Lemma set_elements a idx v a' :
  wf a = true -> result (set a idx v) = Ok a' ->
  wf a' = true /\ 0 <= idx < length a /\
  elements a' = <[Z.to_nat idx := v]> (elements a).
Proof.
  intros Hwf Ha. split; [apply (wf_set a idx v a' Hwf Ha) |].
  pose proof Hwf as Hwf'.
  apply wf_spec in Hwf' as (b & Hb & Hs & Hl & Hc & Hall).
  destruct (Z.lt_ge_cases idx 0) as [Hneg | Hpos];
    [rewrite set_out_of_range in Ha by lia; discriminate |].
  destruct (Z.le_gt_cases (length a) idx) as [Hge | Hlt];
    [rewrite set_out_of_range in Ha by lia; discriminate |].
  split; [lia |].
  rewrite (set_in_range a b) in Ha by (auto; lia). injection Ha as <-.
  unfold with_data. apply elements_intro.
  rewrite take_insert_lt by lia. rewrite (elements_take a b Hwf Hb).
  symmetry. apply list_fmap_insert.
Qed.

Lemma append_elements a v a' :
  wf a = true -> result (append a v) = Ok a' ->
  wf a' = true /\ elements a' = elements a ++ [v].
Proof.
  intros Hwf Ha. split; [apply (wf_append a v a' Hwf Ha) |].
  pose proof Hwf as Hwf'.
  apply wf_spec in Hwf' as (b & Hb & Hs & Hl & Hc & Hall).
  pose proof (elements_take a b Hwf Hb) as Htake.
  assert (Z.of_nat (List.length b) = capacity a) as Hs' by exact Hs.
  assert (exists (b' : block) c',
            a' = {| data := Some (<[Z.to_nat (length a) := Some v]> b');
                    capacity := c'; length := length a + 1 |} /\
            (Z.to_nat (length a) < List.length b')%nat /\
            take (Z.to_nat (length a)) b' = take (Z.to_nat (length a)) b)
    as (b' & c' & -> & Hlt & Hsame).
  { destruct (Z.eq_dec (length a) (capacity a)) as [Hfull | Hroom].
    - destruct (Z.eq_dec (capacity a) 0) as [H0 | H0];
        [rewrite (append_full_zero a b) in Ha by auto; discriminate |].
      destruct (Z.lt_ge_cases INT_MAX (capacity a * 2)) as [Hov | Hfit];
        [rewrite (append_full_overflow a b) in Ha by auto; discriminate |].
      rewrite (append_full a b) in Ha by (auto; lia). injection Ha as <-.
      eexists _, _. split; [reflexivity |]. split.
      + rewrite length_app, length_replicate. lia.
      + apply take_app_le. lia.
    - rewrite (append_room a b) in Ha by (auto; lia). injection Ha as <-.
      eexists _, _. split; [reflexivity |]. split; [lia | reflexivity]. }
  apply elements_intro.
  replace (Z.to_nat (length a + 1)) with (S (Z.to_nat (length a))) by lia.
  rewrite take_succ_insert by exact Hlt.
  rewrite Hsame, Htake, fmap_app. reflexivity.
Qed.

Lemma popBack_elements a a' :
  wf a = true -> 0 < length a -> result (popBack a) = Ok a' ->
  wf a' = true /\
  elements a' = take (List.length (elements a) - 1) (elements a).
Proof.
  intros Hwf Hpos Ha. split; [apply (wf_popBack a a' Hwf Hpos Ha) |].
  pose proof Hwf as Hwf'.
  apply wf_spec in Hwf' as (b & Hb & Hs & Hl & Hc & Hall).
  pose proof (elements_take a b Hwf Hb) as Htake.
  pose proof (elements_length a Hwf) as Hlen.
  rewrite popBack_in_range in Ha by (unfold INT_MIN; lia). injection Ha as <-.
  unfold with_length. rewrite Hb. apply elements_intro.
  replace (Z.to_nat (length a - 1)) with (List.length (elements a) - 1)%nat by lia.
  rewrite fmap_take, <- Htake, take_take. f_equal. lia.
Qed.

Lemma perform_elements a o a' :
  wf a = true -> pop_nonempty a o = true -> result (perform a o) = Ok a' ->
  wf a' = true /\ elements a' = list_step (elements a) o.
Proof.
  intros Hwf Hguard Ha. destruct o as [idx | idx v | v | |].
  - apply perform_get_state in Ha as ->. split; [exact Hwf | reflexivity].
  - destruct (set_elements a idx v a' Hwf Ha) as (Hwf' & _ & Hel). auto.
  - apply (append_elements a v a' Hwf Ha).
  - simpl in Hguard. apply Z.ltb_lt in Hguard.
    apply (popBack_elements a a' Hwf Hguard Ha).
  - simpl in Ha. injection Ha as <-. split; [exact Hwf | reflexivity].
Qed.

(** ** What any call that returns does to [length] and [capacity] *)

Ltac bind_returns H :=
  rewrite result_bind in H;
  match type of H with
  | context [match result ?m with _ => _ end] =>
      let R := fresh "R" in destruct (result m) eqn:R; try discriminate H
  end.

Lemma int_arith_returns z l : result (int_arith z) = Ok l -> l = z.
Proof.
  unfold int_arith. destruct (in_int_range z); [| discriminate].
  intros H. injection H as <-. reflexivity.
Qed.

Lemma grow_returns a a1 :
  result (grow a) = Ok a1 ->
  length a1 = length a /\ capacity a1 = capacity a * 2.
Proof.
  unfold grow. intros H. do 4 bind_returns H.
  apply int_arith_returns in R2. injection H as <-. simpl. auto.
Qed.

Lemma append_returns a v a' :
  result (append a v) = Ok a' ->
  length a' = length a + 1 /\
  capacity a' = (if length a =? capacity a then capacity a * 2 else capacity a).
Proof.
  unfold append. intros H. do 3 bind_returns H.
  apply int_arith_returns in R1. injection H as <-. subst x1.
  unfold with_length, with_data. simpl.
  destruct (length a =? capacity a).
  - apply grow_returns in R as [Hl Hc]. rewrite Hl, Hc. auto.
  - injection R as <-. auto.
Qed.

Lemma set_returns a idx v a' :
  result (set a idx v) = Ok a' ->
  length a' = length a /\ capacity a' = capacity a.
Proof.
  unfold set. intros H. do 3 bind_returns H. injection H as <-. auto.
Qed.

Lemma popBack_returns a a' :
  result (popBack a) = Ok a' ->
  length a' = length a - 1 /\ capacity a' = capacity a.
Proof.
  unfold popBack. intros H. bind_returns H.
  apply int_arith_returns in R. injection H as <-. simpl. subst. auto.
Qed.

Lemma perform_returns a o a' :
  result (perform a o) = Ok a' ->
  length a' = length a + length_change o /\
  (capacity a' = capacity a \/
   is_append o = true /\ length a = capacity a /\ capacity a' = capacity a * 2).
Proof.
  intros H. destruct o as [idx | idx v | v | |]; simpl.
  - apply perform_get_state in H as ->. split; [lia | auto].
  - apply set_returns in H as [-> ->]. split; [lia | auto].
  - apply append_returns in H as [-> ->]. split; [reflexivity |].
    destruct (length a =? capacity a) eqn:Hfull; [| auto].
    apply Z.eqb_eq in Hfull. auto.
  - apply popBack_returns in H as [-> ->]. split; [lia | auto].
  - simpl in H. injection H as <-. split; [lia | auto].
Qed.


(** ** Text *)

Lemma string_app_assoc (s1 s2 s3 : string) :
  (s1 +:+ s2) +:+ s3 = s1 +:+ s2 +:+ s3.
Proof.
  induction s1 as [| c s1 IH]; [reflexivity |].
  change (String c ((s1 +:+ s2) +:+ s3) = String c (s1 +:+ s2 +:+ s3)).
  f_equal. exact IH.
Qed.

Lemma string_app_empty_r (s : string) : s +:+ "" = s.
Proof.
  induction s as [| c s IH]; [reflexivity |].
  change (String c (s +:+ "") = String c s). f_equal. exact IH.
Qed.

Lemma concat_after_first (x : Z) (ws : list Z) :
  String.concat ", " (pretty x :: (pretty <$> ws)) = pretty x +:+ after_first ws.
Proof.
  revert x. induction ws as [| w ws IH]; intros x.
  - cbn. symmetry. apply string_app_empty_r.
  - change (String.concat ", " (pretty x :: (pretty <$> w :: ws)))
      with (pretty x +:+ ", " +:+ String.concat ", " (pretty w :: (pretty <$> ws))).
    rewrite IH. reflexivity.
Qed.

Lemma bind_ext {A B} (m : M A) (f g : A -> M B) :
  (forall x, f x = g x) -> bind m f = bind m g.
Proof.
  intros H. destruct m as [t [x | e |]]; simpl; [rewrite H |..]; reflexivity.
Qed.

(** The loop of [printArray] takes [length - i] rounds: with that much fuel
    or more it gives the same, whatever the array. *)
Lemma printArray_loop_fuel fuel : forall a i out,
  (Z.to_nat (length a - i) <= fuel)%nat ->
  printArray_loop fuel a i out
  = printArray_loop (Z.to_nat (length a - i)) a i out.
Proof.
  induction fuel as [| fuel IH]; intros a i out Hfuel.
  - replace (Z.to_nat (length a - i)) with 0%nat by lia. reflexivity.
  - destruct (Z.to_nat (length a - i)) as [| k] eqn:Hk.
    + cbn [printArray_loop]. replace (i <? length a) with false by fails.
      reflexivity.
    + cbn [printArray_loop]. destruct (i <? length a); [| reflexivity].
      apply bind_ext. intros x. unfold int_arith.
      destruct (in_int_range (i + 1)); [| reflexivity].
      rewrite !bind_ret, IH by lia.
      replace (Z.to_nat (length a - (i + 1))) with k by lia. reflexivity.
Qed.

(** The fuel that [printArray] gives its loop is enough. *)
Lemma printArray_fuel a out fuel :
  (Z.to_nat (length a) <= fuel)%nat ->
  printArray_loop fuel a 1 out
  = printArray_loop (Z.to_nat (length a)) a 1 out.
Proof.
  intros Hfuel. rewrite (printArray_loop_fuel fuel) by lia.
  rewrite (printArray_loop_fuel (Z.to_nat (length a))) by lia. reflexivity.
Qed.

(** The loop from [i], with enough fuel, on a well-formed array. *)
Lemma printArray_loop_elements a (Hwf : wf a = true) ws :
  forall i out fuel,
    0 <= i -> drop (Z.to_nat i) (elements a) = ws ->
    (List.length ws <= fuel)%nat ->
    printArray_loop fuel a i out
    = (EvLoad <$> seqZ i (Z.of_nat (List.length ws)), Ok (out +:+ after_first ws)).
Proof.
  pose proof (elements_length a Hwf) as Hlen.
  assert (length a <= INT_MAX) as Hmax
    by (apply wf_spec in Hwf as (b & _ & _ & ? & ? & _); lia).
  induction ws as [| w ws IH]; intros i out fuel Hi Hdrop Hfuel.
  - apply drop_nil_inv in Hdrop.
    destruct fuel; cbn [printArray_loop];
      replace (i <? length a) with false by fails;
      rewrite string_app_empty_r; reflexivity.
  - assert (elements a !! Z.to_nat i = Some w) as Hw.
    { rewrite <- (Nat.add_0_r (Z.to_nat i)), <- lookup_drop, Hdrop. reflexivity. }
    pose proof (lookup_lt_Some _ _ _ Hw) as Hlt.
    pose proof (drop_S _ _ _ Hw) as Hnext. rewrite Hdrop in Hnext.
    injection Hnext as Hnext.
    destruct fuel as [| fuel]; [simpl in Hfuel; lia |].
    cbn [printArray_loop]. replace (i <? length a) with true by holds.
    apply (elements_slot a _ _ Hwf) in Hw as [Hw _]. rewrite Z2Nat.id in Hw by lia.
    rewrite (get_slot a i w) by (auto; lia). rewrite bind_ok.
    rewrite int_arith_in_range by (unfold INT_MIN; lia). rewrite bind_ret.
    rewrite (IH (i + 1) _ fuel); [| lia | | simpl in Hfuel; lia].
    + rewrite after_pair. simpl List.length.
      rewrite (seqZ_cons i) by lia. rewrite !string_app_assoc.
      replace (Z.pred (Z.of_nat (S (List.length ws))))
        with (Z.of_nat (List.length ws)) by lia.
      reflexivity.
    + replace (Z.to_nat (i + 1)) with (S (Z.to_nat i)) by lia.
      symmetry. exact Hnext.
Qed.

Lemma three_of_four_reachable : reachable_under pop_nonempty three_of_four.
Proof.
  apply (reachable_step pop_nonempty
           {| data := Some [Some 10; Some 20; Some 30; None];
              capacity := 4; length := 3 |} (OpSet 1 15));
    [| reflexivity ..].
  apply (reachable_step pop_nonempty
           {| data := Some [Some 10; Some 20]; capacity := 2; length := 2 |}
           (OpAppend 30)); [| reflexivity ..].
  apply (reachable_step pop_nonempty
           {| data := Some [Some 10; None]; capacity := 2; length := 1 |}
           (OpAppend 20)); [| reflexivity ..].
  apply (reachable_step pop_nonempty empty_of_two (OpAppend 10));
    [| reflexivity ..].
  apply (reachable_create pop_nonempty 2); [unfold INT_MAX; lia | reflexivity].
Qed.

Lemma appendAll_elements values : forall a a',
  wf a = true -> result (appendAll a values) = Ok a' ->
  wf a' = true /\ elements a' = elements a ++ values.
Proof.
  induction values as [| v values IH]; intros a a' Hwf Ha.
  - simpl in Ha. injection Ha as <-. rewrite app_nil_r. auto.
  - cbn [appendAll] in Ha. bind_returns Ha.
    destruct (append_elements a v x Hwf R) as [Hwf1 Hel1].
    destruct (IH x a' Hwf1 Ha) as [Hwf' Hel'].
    split; [exact Hwf' |]. rewrite Hel', Hel1, <- app_assoc. reflexivity.
Qed.

Lemma store_before_block (p : pointer) idx v :
  idx < 0 -> store p idx v = ([EvStore idx], Undefined).
Proof.
  intros Hneg. destruct p as [b |]; [apply store_outside; lia | reflexivity].
Qed.

(** * Further properties *)

(** ** The array as a list *)

(** X1. A run of operations that returns, started on a well-formed array
    and popping only from arrays of positive length, ends on a well-formed
    array whose elements are those of the list model: [set] replaces one
    element, [append] adds one at the end, [popBack] removes the last,
    [get] and [popFront] change nothing. *)
Theorem run_refines_list ops : forall a a',
  wf a = true -> pops_nonempty a ops = true ->
  result (performAll a ops) = Ok a' ->
  wf a' = true /\ elements a' = foldl list_step (elements a) ops.
Proof.
  induction ops as [| o ops IH]; intros a a' Hwf Hguard Ha.
  - simpl in Ha. injection Ha as <-. split; [exact Hwf | reflexivity].
  - cbn [performAll] in Ha. cbn [pops_nonempty] in Hguard.
    bind_returns Ha.
    apply andb_true_iff in Hguard as [Hguard Hrest].
    destruct (perform_elements a o x Hwf Hguard R) as [Hwf1 Hel1].
    destruct (IH x a' Hwf1 Hrest Ha) as [Hwf' Hel'].
    split; [exact Hwf' |]. cbn [foldl]. rewrite <- Hel1. exact Hel'.
Qed.

Lemma run_refines_list_witness :
  let ops := [OpAppend 10; OpAppend 20; OpAppend 30; OpSet 1 15; OpPopBack] in
  let a' := {| data := Some [Some 10; Some 15; Some 30; None];
               capacity := 4; length := 2 |} in
  wf empty_of_two = true /\ pops_nonempty empty_of_two ops = true /\
  result (performAll empty_of_two ops) = Ok a' /\
  wf a' = true /\ elements a' = foldl list_step (elements empty_of_two) ops.
Proof.
  split; [reflexivity |]. split; [reflexivity |]. split; [reflexivity |].
  apply (run_refines_list _ empty_of_two); reflexivity.
Defined.

(** X2. Whatever the array, after a run that returns [length] is the
    length before, plus the number of appends, minus the number of
    [popBack]s (also below zero: nothing stops the count at 0). *)
Theorem length_counts_calls ops : forall a a',
  result (performAll a ops) = Ok a' ->
  length a' = length a + net_length_change ops.
Proof.
  induction ops as [| o ops IH]; intros a a' Ha.
  - simpl in Ha. injection Ha as <-. simpl. lia.
  - cbn [performAll] in Ha. bind_returns Ha.
    apply perform_returns in R as [Hl _]. apply IH in Ha.
    cbn [net_length_change foldr]. fold (net_length_change ops). lia.
Qed.

Lemma length_counts_calls_witness :
  let ops := [OpPopBack; OpPopFront; OpPopBack] in
  let a' := {| data := Some [None; None]; capacity := 2; length := -2 |} in
  result (performAll empty_of_two ops) = Ok a' /\
  length a' = length empty_of_two + net_length_change ops.
Proof.
  split; [reflexivity |].
  apply (length_counts_calls _ empty_of_two). reflexivity.
Defined.

(** X3. Over a run that returns, the capacity is never made smaller: it is
    the capacity before times a power of two, with at most one doubling per
    append. *)
Theorem capacity_only_doubles ops : forall a a',
  result (performAll a ops) = Ok a' ->
  exists k : nat,
    (k <= List.length (List.filter is_append ops))%nat /\
    capacity a' = capacity a * 2 ^ Z.of_nat k.
Proof.
  induction ops as [| o ops IH]; intros a a' Ha.
  - simpl in Ha. injection Ha as <-. exists 0%nat. simpl. split; lia.
  - cbn [performAll] in Ha. bind_returns Ha.
    apply perform_returns in R as [_ Hc]. apply IH in Ha as (k & Hk & Hcap).
    cbn [List.filter].
    destruct Hc as [Hsame | (Happ & _ & Hdouble)].
    + exists k. split; [destruct (is_append o); simpl; lia |].
      rewrite Hcap, Hsame. reflexivity.
    + exists (S k). rewrite Happ. split; [simpl; lia |].
      rewrite Hcap, Hdouble, Nat2Z.inj_succ, Z.pow_succ_r by lia. lia.
Qed.

Lemma capacity_only_doubles_witness :
  let ops := [OpAppend 10; OpAppend 20; OpAppend 30; OpPopBack; OpPopBack] in
  let a' := {| data := Some [Some 10; Some 20; Some 30; None];
               capacity := 4; length := 1 |} in
  result (performAll empty_of_two ops) = Ok a' /\
  exists k : nat,
    (k <= List.length (List.filter is_append ops))%nat /\
    capacity a' = capacity empty_of_two * 2 ^ Z.of_nat k.
Proof.
  split; [reflexivity |].
  apply (capacity_only_doubles _ empty_of_two). reflexivity.
Defined.

(** ** Arrays a program can reach *)

(** X4. On an array reached with [popBack] kept to arrays of positive
    length, [get] and [set] at an index in [0, length) are defined and
    return: [get] with one load of a slot that holds a value, [set] with one
    store, to an array that is reached as well. *)
Theorem reachable_access_defined a i :
  reachable_under pop_nonempty a -> 0 <= i < length a ->
  (exists v, get a i = ([EvLoad i], Ok v)) /\
  (forall w, exists a',
     set a i w = ([EvStore i], Ok a') /\ reachable_under pop_nonempty a').
Proof.
  intros Hreach Hi. pose proof (reachable_wf a Hreach) as Hwf. split.
  - destruct (wf_slot a i Hwf Hi) as [v Hv]. exists v. apply get_slot; assumption.
  - intros w. pose proof Hwf as Hwf'.
    apply wf_spec in Hwf' as (b & Hb & Hs & Hl & _ & _).
    eexists. split; [apply (set_in_range a b); auto; lia |].
    apply (reachable_step pop_nonempty a (OpSet i w)); [exact Hreach | reflexivity |].
    simpl. rewrite (set_in_range a b) by (auto; lia). reflexivity.
Qed.

Lemma reachable_access_defined_witness :
  reachable_under pop_nonempty three_of_four /\ 0 <= 2 < length three_of_four /\
  (exists v, get three_of_four 2 = ([EvLoad 2], Ok v)) /\
  (forall w, exists a',
     set three_of_four 2 w = ([EvStore 2], Ok a') /\
     reachable_under pop_nonempty a').
Proof.
  split; [exact three_of_four_reachable |]. split; [simpl; lia |].
  apply (reachable_access_defined three_of_four 2);
    [exact three_of_four_reachable | simpl; lia].
Defined.

(** X5. On an array reached in that way the data pointer is not null, its
    block has exactly [capacity] slots, [capacity] is at most [INT_MAX], and
    every slot below [length] holds a value. *)
Theorem reachable_block_has_capacity_slots a :
  reachable_under pop_nonempty a ->
  exists b : block,
    data a = Some b /\ block_size b = capacity a /\ capacity a <= INT_MAX /\
    forall i, 0 <= i < length a -> exists v, b !! Z.to_nat i = Some (Some v).
Proof.
  intros Hreach. apply reachable_wf, wf_spec in Hreach.
  destruct Hreach as (b & Hb & Hs & Hl & Hc & Hall). exists b.
  repeat split; try assumption. intros i Hi.
  apply (initialised_lookup b (Z.to_nat (length a))); [exact Hall | lia |].
  unfold block_size in Hs. lia.
Qed.

Lemma reachable_block_has_capacity_slots_witness :
  reachable_under pop_nonempty three_of_four /\
  exists b : block,
    data three_of_four = Some b /\ block_size b = capacity three_of_four /\
    capacity three_of_four <= INT_MAX /\
    forall i, 0 <= i < length three_of_four ->
      exists v, b !! Z.to_nat i = Some (Some v).
Proof.
  split; [exact three_of_four_reachable |].
  apply (reachable_block_has_capacity_slots three_of_four three_of_four_reachable).
Defined.

(** ** [append], one and many *)

(** X6. On a well-formed array of capacity at least 1 and length below
    [2 ^ 30], [append] returns: the array is well-formed, its elements are the
    old ones followed by the value, its length is one more and its capacity
    not smaller. *)
Theorem append_adds_last a v :
  wf a = true -> 1 <= capacity a -> length a < 2 ^ 30 ->
  exists a',
    result (append a v) = Ok a' /\ wf a' = true /\
    elements a' = elements a ++ [v] /\
    length a' = length a + 1 /\ capacity a <= capacity a'.
Proof.
  intros Hwf Hcap Hlen.
  destruct (append_correct a v Hwf Hcap Hlen) as (a' & Ha & Hwf' & _ & Hl & _).
  exists a'. split; [exact Ha |]. split; [exact Hwf' |].
  split; [apply (append_elements a v a' Hwf Ha) |]. split; [exact Hl |].
  apply append_returns in Ha as [_ ->].
  destruct (length a =? capacity a); lia.
Qed.

Lemma append_adds_last_witness :
  wf three_of_four = true /\ 1 <= capacity three_of_four /\
  length three_of_four < 2 ^ 30 /\
  exists a',
    result (append three_of_four 40) = Ok a' /\ wf a' = true /\
    elements a' = elements three_of_four ++ [40] /\
    length a' = length three_of_four + 1 /\
    capacity three_of_four <= capacity a'.
Proof.
  split; [reflexivity |]. split; [simpl; lia |]. split; [reflexivity |].
  apply (append_adds_last three_of_four 40); [reflexivity | simpl; lia | reflexivity].
Defined.






(** X8. [newArray(c)] with [1 <= c <= INT_MAX] followed by the appends of
    up to [2 ^ 30] values returns a well-formed array whose elements are
    those values, in order: its length is their number and [get] at [i]
    returns the [i]-th of them. *)
Theorem newArray_then_appends_holds_values c values :
  1 <= c <= INT_MAX -> Z.of_nat (List.length values) <= 2 ^ 30 ->
  exists a,
    result (do a0 <- newArray c; appendAll a0 values) = Ok a /\
    wf a = true /\ elements a = values /\
    length a = Z.of_nat (List.length values) /\
    forall i v, values !! i = Some v ->
      get a (Z.of_nat i) = ([EvLoad (Z.of_nat i)], Ok v).
Proof.
  intros Hc Hn. rewrite result_bind, newArray_int by lia. cbn [result snd].
  set (a0 := {| data := Some (replicate (Z.to_nat c) None);
                capacity := c; length := 0 |}).
  assert (wf a0 = true) as Hwf0
    by (apply (wf_newArray c); [lia | rewrite newArray_int by lia; reflexivity]).
  destruct (appendAll_correct values a0 Hwf0) as (a & Ha & Hwf & Hl & _ & _);
    [simpl; lia | simpl; lia |].
  destruct (appendAll_elements values a0 a Hwf0 Ha) as [_ Hel].
  assert (elements a = values) as Hvalues by (rewrite Hel; reflexivity).
  exists a. simpl in Hl. repeat split; try assumption.
  intros i v Hv. rewrite <- Hvalues in Hv.
  apply (elements_slot a i v Hwf) in Hv as [Hs Hi].
  apply get_slot; [lia | exact Hs].
Qed.

Lemma newArray_then_appends_holds_values_witness :
  1 <= 2 <= INT_MAX /\ Z.of_nat (List.length [10; 20; 30]) <= 2 ^ 30 /\
  exists a,
    result (do a0 <- newArray 2; appendAll a0 [10; 20; 30]) = Ok a /\
    wf a = true /\ elements a = [10; 20; 30] /\
    length a = Z.of_nat (List.length [10; 20; 30]) /\
    forall i v, [10; 20; 30] !! i = Some v ->
      get a (Z.of_nat i) = ([EvLoad (Z.of_nat i)], Ok v).
Proof.
  split; [unfold INT_MAX; lia |]. split; [simpl; lia |].
  apply (newArray_then_appends_holds_values 2 [10; 20; 30]);
    [unfold INT_MAX; lia | simpl; lia].
Defined.

(** ** [set] and [set] *)

(** X9. Two [set]s at the same index in [0, length) of a well-formed
    array leave what the second alone leaves: the last write wins. *)
Theorem set_twice_keeps_last a i v w :
  wf a = true -> 0 <= i < length a ->
  exists a',
    result (do a1 <- set a i v; set a1 i w) = Ok a' /\
    result (set a i w) = Ok a'.
Proof.
  intros Hwf Hi. apply wf_spec in Hwf as (b & Hb & Hs & Hl & _ & _).
  eexists. rewrite (set_in_range a b) by (auto; lia).
  rewrite bind_ok. unfold after. cbn [result snd].
  rewrite (set_in_range _ (<[Z.to_nat i := Some v]> b) i w);
    [| reflexivity | exact Hi
     | unfold block_size in *; rewrite length_insert; simpl; lia].
  rewrite (set_in_range a b) by (auto; lia).
  unfold with_data. cbn [result snd data capacity length].
  rewrite list_insert_insert_eq. split; reflexivity.
Qed.

Lemma set_twice_keeps_last_witness :
  wf three_of_four = true /\ 0 <= 1 < length three_of_four /\
  exists a',
    result (do a1 <- set three_of_four 1 7; set a1 1 8) = Ok a' /\
    result (set three_of_four 1 8) = Ok a'.
Proof.
  split; [reflexivity |]. split; [simpl; lia |].
  apply (set_twice_keeps_last three_of_four 1 7 8); [reflexivity | simpl; lia].
Defined.

(** X10. Two [set]s at different indices in [0, length) of a well-formed
    array give the same array in either order. *)
Theorem set_commutes a i j v w :
  wf a = true -> 0 <= i < length a -> 0 <= j < length a -> i <> j ->
  exists a',
    result (do a1 <- set a i v; set a1 j w) = Ok a' /\
    result (do a1 <- set a j w; set a1 i v) = Ok a'.
Proof.
  intros Hwf Hi Hj Hne. apply wf_spec in Hwf as (b & Hb & Hs & Hl & _ & _).
  eexists. rewrite !(set_in_range a b) by (auto; lia).
  rewrite !bind_ok. unfold after. cbn [result snd].
  rewrite (set_in_range _ (<[Z.to_nat i := Some v]> b) j w);
    [| reflexivity | exact Hj
     | unfold block_size in *; rewrite length_insert; simpl; lia].
  rewrite (set_in_range _ (<[Z.to_nat j := Some w]> b) i v);
    [| reflexivity | exact Hi
     | unfold block_size in *; rewrite length_insert; simpl; lia].
  unfold with_data. cbn [result snd data capacity length].
  rewrite (list_insert_insert_ne b (Z.to_nat j) (Z.to_nat i)) by lia.
  split; reflexivity.
Qed.

Lemma set_commutes_witness :
  wf three_of_four = true /\ 0 <= 0 < length three_of_four /\
  0 <= 2 < length three_of_four /\ 0 <> 2 /\
  exists a',
    result (do a1 <- set three_of_four 0 7; set a1 2 8) = Ok a' /\
    result (do a1 <- set three_of_four 2 8; set a1 0 7) = Ok a'.
Proof.
  split; [reflexivity |]. split; [simpl; lia |]. split; [simpl; lia |].
  split; [lia |].
  apply (set_commutes three_of_four 0 2 7 8); [reflexivity | simpl; lia .. | lia].
Defined.

(** ** [popBack] and [append] *)

(** X11. On a well-formed array of positive length, [popBack] followed by
    the [append] of the value that was last gives back the very same array
    (same block, capacity and length), with one store and no allocation. *)
Theorem append_of_popped_restores a v :
  wf a = true -> 0 < length a -> result (get a (length a - 1)) = Ok v ->
  (do a1 <- popBack a; append a1 v) = ([EvStore (length a - 1)], Ok a).
Proof.
  intros Hwf Hpos Hget. apply wf_spec in Hwf as (b & Hb & Hs & Hl & Hc & _).
  rewrite get_unfold in Hget.
  replace (length a - 1 <? length a) with true in Hget by holds.
  replace (length a - 1 >=? 0) with true in Hget by holds.
  unfold slot, slot_at in Hget. rewrite Hb in Hget.
  replace (0 <=? length a - 1) with true in Hget by holds.
  cbn [result snd] in Hget.
  destruct (b !! Z.to_nat (length a - 1)) as [[x |] |] eqn:Hlast;
    try discriminate Hget.
  injection Hget as ->.
  rewrite popBack_in_range by (unfold INT_MIN; lia). rewrite bind_ok.
  rewrite (append_room _ b);
    [| unfold with_length; simpl; exact Hb | simpl; lia | simpl; lia | simpl; lia].
  rewrite after_pair. cbn [with_length data capacity length].
  rewrite list_insert_id by exact Hlast.
  replace (length a - 1 + 1) with (length a) by lia.
  destruct a as [d c l]. simpl in *. subst d. reflexivity.
Qed.

Lemma append_of_popped_restores_witness :
  wf three_of_four = true /\ 0 < length three_of_four /\
  result (get three_of_four (length three_of_four - 1)) = Ok 30 /\
  (do a1 <- popBack three_of_four; append a1 30)
  = ([EvStore (length three_of_four - 1)], Ok three_of_four).
Proof.
  split; [reflexivity |]. split; [reflexivity |]. split; [reflexivity |].
  apply (append_of_popped_restores three_of_four 30); reflexivity.
Defined.

(** X12. On a well-formed array of capacity at least 1 and length below
    [2 ^ 30], [append] followed by [popBack] returns a well-formed array
    with the elements and the length it had; the capacity is not smaller,
    and stays doubled when [append] had to grow. *)
Theorem popBack_undoes_append a v :
  wf a = true -> 1 <= capacity a -> length a < 2 ^ 30 ->
  exists a',
    result (do a1 <- append a v; popBack a1) = Ok a' /\
    wf a' = true /\ elements a' = elements a /\ length a' = length a /\
    capacity a' = (if length a =? capacity a then capacity a * 2 else capacity a).
Proof.
  intros Hwf Hcap Hlen.
  assert (0 <= length a) as Hpos
    by (apply wf_spec in Hwf as (b & _ & _ & Hl & _); lia).
  destruct (append_correct a v Hwf Hcap Hlen) as (a1 & Ha1 & Hwf1 & _ & Hl1 & _).
  destruct (append_elements a v a1 Hwf Ha1) as [_ Hel1].
  pose proof (append_returns a v a1 Ha1) as [_ Hc1].
  assert (exists a', result (popBack a1) = Ok a') as [a' Ha'].
  { eexists. rewrite popBack_in_range; [reflexivity |].
    unfold INT_MIN, INT_MAX. lia. }
  destruct (popBack_elements a1 a' Hwf1) as [Hwf' Hel']; [lia | exact Ha' |].
  pose proof (popBack_returns a1 a' Ha') as [Hl' Hc'].
  exists a'. rewrite result_bind, Ha1. split; [exact Ha' |].
  split; [exact Hwf' |]. split; [| split; [lia | congruence]].
  rewrite Hel', Hel1, length_app. simpl.
  replace (List.length (elements a) + 1 - 1)%nat
    with (List.length (elements a)) by lia.
  apply take_app_length.
Qed.

Lemma popBack_undoes_append_witness :
  let full := {| data := Some [Some 10; Some 20]; capacity := 2; length := 2 |} in
  wf full = true /\ 1 <= capacity full /\ length full < 2 ^ 30 /\
  exists a',
    result (do a1 <- append full 30; popBack a1) = Ok a' /\
    wf a' = true /\ elements a' = elements full /\ length a' = length full /\
    capacity a' = (if length full =? capacity full
                   then capacity full * 2 else capacity full).
Proof.
  split; [reflexivity |]. split; [simpl; lia |]. split; [reflexivity |].
  apply (popBack_undoes_append
           {| data := Some [Some 10; Some 20]; capacity := 2; length := 2 |} 30);
    [reflexivity | simpl; lia | reflexivity].
Defined.

(** X13. After a [popBack] on an array of length 0 (which returns, with
    length -1), an [append] stores to [data[-1]], before the block: it has
    no defined result, whatever the block and the value.  (Were the capacity
    -1 it would grow first.) *)
Theorem append_after_popBack_on_empty a v :
  length a = 0 -> capacity a <> -1 ->
  (do a1 <- popBack a; append a1 v) = ([EvStore (-1)], Undefined).
Proof.
  intros H0 Hcap.
  rewrite popBack_in_range by (rewrite H0; unfold INT_MIN, INT_MAX; lia).
  rewrite bind_ok. unfold append, with_length. cbn [length capacity data].
  rewrite H0. replace (0 - 1 =? capacity a) with false by fails.
  rewrite bind_ret. cbn [length data].
  rewrite store_before_block by lia. reflexivity.
Qed.

Lemma append_after_popBack_on_empty_witness :
  length empty_of_two = 0 /\ capacity empty_of_two <> -1 /\
  (do a1 <- popBack empty_of_two; append a1 7) = ([EvStore (-1)], Undefined).
Proof.
  split; [reflexivity |]. split; [simpl; lia |].
  apply (append_after_popBack_on_empty empty_of_two 7); [reflexivity | simpl; lia].
Defined.

(** ** The limits of [int] and [size_t] *)

(** X14. [newArray] with a negative capacity: the byte count
    [sizeof(int) * capacity] wraps around in [size_t] to [2 ^ 64 + 4 * c],
    [malloc] returns null, and the array that comes back has a null data
    pointer, the negative capacity and length 0; an [append] on it stores
    through the null pointer and has no defined result. *)
Theorem newArray_negative_capacity c v :
  INT_MIN <= c < 0 ->
  newArray c = ([EvMalloc sizeof_Array; EvMalloc (SIZE_MODULUS + 4 * c)],
                Ok {| data := None; capacity := c; length := 0 |}) /\
  append {| data := None; capacity := c; length := 0 |} v
  = ([EvStore 0], Undefined).
Proof.
  intros Hc. split.
  - unfold newArray.
    assert (size_mul sizeof_int (to_size_t c) = SIZE_MODULUS + 4 * c) as ->.
    { unfold size_mul, to_size_t, sizeof_int, SIZE_MODULUS, INT_MIN in *.
      rewrite <- (Z.mod_unique_pos c (2 ^ 64) (-1) (2 ^ 64 + c)) by lia.
      symmetry. apply (Z.mod_unique_pos _ _ 3). all: lia. }
    change sizeof_Array with (4 * 4). rewrite (malloc_slots 4) by (unfold INT_MAX; lia).
    rewrite bind_ok. unfold malloc, emit. rewrite bind_ok.
    replace (SIZE_MODULUS + 4 * c <=? PTRDIFF_MAX) with false
      by (unfold SIZE_MODULUS, PTRDIFF_MAX, INT_MIN in *; fails).
    reflexivity.
  - unfold append. cbn [length capacity data].
    replace (0 =? c) with false by fails. reflexivity.
Qed.

Lemma newArray_negative_capacity_witness :
  INT_MIN <= -1 < 0 /\
  newArray (-1) = ([EvMalloc sizeof_Array; EvMalloc (SIZE_MODULUS + 4 * -1)],
                   Ok null_of_minus_one) /\
  append null_of_minus_one 7 = ([EvStore 0], Undefined).
Proof.
  split; [unfold INT_MIN; lia |].
  apply (newArray_negative_capacity (-1) 7). unfold INT_MIN. lia.
Defined.



(** ** [printArray] *)

(** X16. On a well-formed array [printArray] returns; it has written
    ["Array:{"], the elements in decimal separated by [", "], then ["}"] and a
    newline; and it has read the slots 0, 1, ..., [length - 1], once each and
    in that order, and nothing else. *)
Theorem printArray_lists_elements a :
  wf a = true ->
  printArray a
  = (EvLoad <$> seqZ 0 (length a),
     Ok ("Array:{" +:+ String.concat ", " (pretty <$> elements a)
         +:+ "}" +:+ newline)).
Proof.
  intros Hwf. pose proof (elements_length a Hwf) as Hlen.
  pose proof (fun ws => printArray_loop_elements a Hwf ws 1) as Hloop.
  unfold printArray.
  destruct (elements a) as [| x ws] eqn:Hel.
  - simpl in Hlen. replace (length a =? 0) with true by holds.
    cbn [negb]. rewrite bind_ret.
    rewrite (Hloop []); [| lia | reflexivity | simpl; lia].
    rewrite <- Hlen. reflexivity.
  - simpl List.length in Hlen.
    replace (length a =? 0) with false by fails. cbn [negb].
    assert (slot a 0 = Some (Some x)) as Hx.
    { apply (elements_slot a 0 x Hwf). rewrite Hel. reflexivity. }
    rewrite (get_slot a 0 x) by (auto; lia).
    rewrite bind_ok. unfold ret at 1. rewrite after_pair, bind_ok.
    rewrite (Hloop ws); [| lia | reflexivity | lia].
    rewrite bind_ok. unfold ret. rewrite !after_pair.
    change (pretty <$> x :: ws) with (pretty x :: (pretty <$> ws)).
    rewrite concat_after_first, !string_app_assoc.
    rewrite (seqZ_cons 0 (length a)) by lia.
    replace (Z.pred (length a)) with (Z.of_nat (List.length ws)) by lia.
    rewrite !app_nil_r. reflexivity.
Qed.

Lemma printArray_lists_elements_witness :
  wf three_of_four = true /\
  printArray three_of_four
  = (EvLoad <$> seqZ 0 (length three_of_four),
     Ok ("Array:{" +:+ String.concat ", " (pretty <$> elements three_of_four)
         +:+ "}" +:+ newline)).
Proof.
  split; [reflexivity |].
  apply (printArray_lists_elements three_of_four). reflexivity.
Defined.

(** X17. On an array of negative length (what [popBack] leaves of an empty
    array) [printArray] stops on the range assertion of [get(a, 0)], before
    any read of the block: [a->length != 0] lets the first [get] run. *)
Theorem printArray_aborts_on_negative_length a :
  length a < 0 -> printArray a = ([], Abort RangeErrorEnd).
Proof.
  intros Hneg. unfold printArray.
  replace (length a =? 0) with false by fails. cbn [negb].
  rewrite get_unfold. replace (0 <? length a) with false by fails.
  reflexivity.
Qed.

Lemma printArray_aborts_on_negative_length_witness :
  length popped_below_zero < 0 /\
  printArray popped_below_zero = ([], Abort RangeErrorEnd).
Proof.
  split; [reflexivity |].
  apply (printArray_aborts_on_negative_length popped_below_zero). reflexivity.
Defined.

Example printArray_of_main_array :
  result (printArray three_of_four) = Ok ("Array:{10, 15, 30}" +:+ newline).
Proof. vm_compute. reflexivity. Qed.

(** ** [newArray] *)

(** X18. [newArray(c)] with [0 <= c <= INT_MAX] asks for one block for
    the struct and one of [4 * c] bytes, and returns a well-formed array of
    capacity [c] without elements: every [get] on it, at any index, stops on
    a range assertion. *)
Theorem newArray_is_empty c :
  0 <= c <= INT_MAX ->
  exists a,
    newArray c = ([EvMalloc sizeof_Array; EvMalloc (sizeof_int * c)], Ok a) /\
    wf a = true /\ capacity a = c /\ length a = 0 /\ elements a = [] /\
    forall i, is_abort (result (get a i)) = true.
Proof.
  intros Hc. eexists. split; [apply newArray_int, Hc |].
  split; [apply (wf_newArray c); [exact Hc | rewrite newArray_int by exact Hc; reflexivity] |].
  repeat split. intros i. rewrite get_unfold. cbn [length].
  destruct (i <? 0) eqn:Hi; [| reflexivity].
  replace (i >=? 0) with false; [reflexivity |].
  apply Z.ltb_lt in Hi. fails.
Qed.

Lemma newArray_is_empty_witness :
  0 <= 2 <= INT_MAX /\
  exists a,
    newArray 2 = ([EvMalloc sizeof_Array; EvMalloc (sizeof_int * 2)], Ok a) /\
    wf a = true /\ capacity a = 2 /\ length a = 0 /\ elements a = [] /\
    forall i, is_abort (result (get a i)) = true.
Proof.
  split; [unfold INT_MAX; lia |].
  apply (newArray_is_empty 2). unfold INT_MAX. lia.
Defined.


